(** * NNSProposalBot: the state and delivery engine of [main.go]

    A shallow embedding of the bot's shared state (the subscriber registry
    and the last-seen proposal id), of the operations on it, of the poll
    tick and of the snapshot writer, followed by the properties of the
    design document that can be settled on them.

    Conventions.
    - [uint64] values are [N]; the code only compares and prints them, it
      does no arithmetic on them, so no wrap-around arises.
    - [int64] chat ids are [Z], used as map keys only.
    - Go strings are byte strings: [string] with [String.length] as [len].
    - [map[int64]map[string]bool] is a [gmap Z (gmap string bool)].  A key
      that is missing and a key bound to a nil map both read as [nil] in
      Go, and every function of the source only tests [== nil]; both are
      the lookup [None] here.
    - The [sync.RWMutex] makes every method atomic; the model is the
      sequential behaviour of each method. *)

From Stdlib Require Import ZArith NArith Ascii String DecimalString.
From stdpp Require Import gmap strings list fin_maps sorting.

Local Open Scope list_scope.

(** ** Configuration ([var] block of main.go) *)

Definition STATE_PATH : string := "state.json".
Definition MAX_TOPIC_LENGTH : nat := 50.
Definition MAX_BLOCKED_TOPICS : nat := 30.
Definition MAX_SUMMARY_LENGTH : nat := 2048.
Definition TOPIC_GOVERNANCE : string := "Governance".
Definition ALL_EXCEPT_GOVERNANCE : string := "AllButGovernance".

(** ** Data model *)

Record Proposal := mkProposal {
  Title : string;
  Topic : string;
  Id : N;
  Summary : string;
  Proposer : N
}.

Record State := mkState {
  LastSeenProposal : N;
  ChatIds : gmap Z (gmap string bool)
}.

(** [blacklist[topic]] on a [map[string]bool]: a missing key reads [false]. *)
Definition flag (blacklist : gmap string bool) (topic : string) : bool :=
  default false (blacklist !! topic).

(** ** Watermark *)

(** [setNewLastSeenId]: the new state and the [updated] result. *)
Definition setNewLastSeenId (s : State) (id : N) : State * bool :=
  if (LastSeenProposal s <? id)%N
  then (mkState id (ChatIds s), true)
  else (s, false).

(** A sequence of calls, left to right, with the result of each call. *)
Fixpoint admitAll (s : State) (ids : list N) : State * list bool :=
  match ids with
  | [] => (s, [])
  | id :: rest =>
      let '(s1, b) := setNewLastSeenId s id in
      let '(s2, bs) := admitAll s1 rest in
      (s2, b :: bs)
  end.

(** ** Registry *)

Definition removeChatId (s : State) (id : Z) : State :=
  mkState (LastSeenProposal s) (delete id (ChatIds s)).

Definition addChatId (s : State) (id : Z) : State :=
  mkState (LastSeenProposal s) (<[id := ∅]> (ChatIds s)).

Definition blockTopic (s : State) (id : Z) (topic : string) : State :=
  if (MAX_TOPIC_LENGTH <? String.length topic)%nat then s
  else
    match ChatIds s !! id with
    | Some blacklist =>
        if (size blacklist <? MAX_BLOCKED_TOPICS)%nat
        then mkState (LastSeenProposal s)
                     (<[id := <[topic := true]> blacklist]> (ChatIds s))
        else s
    | None => s
    end.

Definition unblockTopic (s : State) (id : Z) (topic : string) : State :=
  match ChatIds s !! id with
  | Some blacklist =>
      mkState (LastSeenProposal s) (<[id := delete topic blacklist]> (ChatIds s))
  | None => s
  end.

(** ** Iteration order of Go maps

    [for k, v := range m] visits the entries of [m] in an order the language
    leaves unspecified.  The functions that range over a map take the order
    from this interface; nothing but "every entry once" is known of it. *)

Class RangeOrder := {
  range : ∀ {K} `{Countable K} {A}, gmap K A → list (K * A);
  range_perm : ∀ {K} `{Countable K} {A} (m : gmap K A), range m ≡ₚ map_to_list m
}.

(** One admissible order, used to run the model on concrete inputs. *)
Definition listOrder : RangeOrder :=
  {| range := λ K _ _ A, map_to_list;
     range_perm := λ K _ _ A m, reflexivity (map_to_list m) |}.

(** ** Strings *)

Definition nl : string := String "010"%char "".

(** [strings.Contains]. *)
Fixpoint contains (s substr : string) : bool :=
  String.prefix substr s ||
  match s with
  | EmptyString => false
  | String _ rest => contains rest substr
  end.

(** [strings.Split(s, " ")]: never empty. *)
Fixpoint splitWords (s : string) : list string :=
  match s with
  | EmptyString => [EmptyString]
  | String c rest =>
      if Ascii.eqb c " "%char then EmptyString :: splitWords rest
      else match splitWords rest with
           | w :: ws => String c w :: ws
           | [] => [String c EmptyString]
           end
  end.

(** [%d] on a [uint64]. *)
Definition decimal (n : N) : string := NilZero.string_of_uint (N.to_uint n).

Section Registry.
Context {order : RangeOrder}.

(** The body of the loop of [chatIdsForTopic]: is this entry appended? *)
Definition notified (topic : string) (blacklist : gmap string bool) : bool :=
  if flag blacklist topic then false
  else if flag blacklist ALL_EXCEPT_GOVERNANCE
          && negb (bool_decide (topic = TOPIC_GOVERNANCE)) then false
  else true.

Definition chatIdsForTopic (s : State) (topic : string) : list Z :=
  fst <$> List.filter (λ entry, notified topic (snd entry)) (range (ChatIds s)).

Definition EMPTY_LIST_MESSAGE : string := "Your list of blocked topics is empty.".

(** The loop and the final [Sprintf] of [blockedTopics]. *)
Definition enabledTopics (entries : list (string * bool)) : list string :=
  fst <$> List.filter snd entries.

Definition listing (topics : list string) : string :=
  "You've blocked these topics: " +:+ String.concat ", " topics +:+ ".".

Definition blockedTopics (s : State) (id : Z) : string :=
  match ChatIds s !! id with
  | None => EMPTY_LIST_MESSAGE
  | Some m =>
      if (size m =? 0)%nat then EMPTY_LIST_MESSAGE
      else listing (enabledTopics (range m))
  end.

End Registry.

(** ** Feed poller and dispatcher ([fetchProposalsAndNotify]) *)

Definition SUMMARY_TOO_LONG : string := "[Proposal summary is too long.]".

(** The summary as it enters the message: replaced when too long, then
    wrapped in newlines unless empty. *)
Definition renderSummary (summary : string) : string :=
  let summary :=
    if (MAX_SUMMARY_LENGTH <? String.length summary + 2)%nat
    then SUMMARY_TOO_LONG else summary in
  if (0 <? String.length summary)%nat then nl +:+ summary +:+ nl else summary.

(** The [Sprintf] of the message text. *)
Definition renderText (p : Proposal) : string :=
  "<b>" +:+ Title p +:+ "</b>" +:+ nl +:+ nl +:+
  "Proposer: " +:+ decimal (Proposer p) +:+ nl +:+
  renderSummary (Summary p) +:+ nl +:+
  "#" +:+ Topic p +:+ nl +:+ nl +:+
  "https://nns.ic0.app/proposal/?proposal=" +:+ decimal (Id p).

(** What a tick does to the outside: log lines and calls of [bot.Send]. *)
Inductive Event :=
  | LogGetFailed (err : string)
  | LogReadFailed (err : string)
  | LogParseFailed
  | LogNewProposal (p : Proposal)
  | Send (chat : Z) (text : string)
  | LogSendFailed (err : string)
  | LogRemoved (chat : Z)
  | LogNotified (users : nat).

(** The response of [http.Get]: the error of reading the body, if any, and
    the result of [json.Unmarshal] on the bytes that were read ([None] when
    it returns an error).  Decoding is encoding/json's, not this program's. *)
Record Response := mkResponse {
  readErr : option string;
  decoded : option (list Proposal)
}.

(** The pair returned by [http.Get]; net/http returns a nil response with
    (nearly) every error. *)
Record Fetched := mkFetched {
  resp : option Response;
  getErr : option string
}.

(** A tick either runs to the end of the loop body or panics (a nil pointer
    dereference in a goroutine ends the process). *)
Inductive Outcome :=
  | Panic (trace : list Event)
  | Next (s : State) (trace : list Event).

(** [sort.Slice] by [Id].  It is not stable: the order among equal ids is
    unspecified, the merge sort below picks one. *)
Definition idLe (p q : Proposal) : Prop := (Id p <= Id q)%N.

Global Instance idLe_dec : RelDecision idLe.
Proof. intros p q. unfold idLe. apply _. Defined.

Definition sortById (proposals : list Proposal) : list Proposal :=
  merge_sort idLe proposals.

Section Poller.
Context {order : RangeOrder}.
(** [bot.Send]: [None] on success, the error text otherwise. *)
Variable send : Z → string → option string.

(** The loop over [ids]. *)
Fixpoint sendAll (s : State) (text : string) (ids : list Z) : State * list Event :=
  match ids with
  | [] => (s, [])
  | id :: rest =>
      match send id text with
      | None =>
          let '(s', trace) := sendAll s text rest in
          (s', Send id text :: trace)
      | Some err =>
          if contains err "bot was blocked by the user" then
            let '(s', trace) := sendAll (removeChatId s id) text rest in
            (s', Send id text :: LogSendFailed err :: LogRemoved id :: trace)
          else
            let '(s', trace) := sendAll s text rest in
            (s', Send id text :: LogSendFailed err :: trace)
      end
  end.

(** The loop body for a proposal that [setNewLastSeenId] accepted. *)
Definition notify (s : State) (p : Proposal) : State * list Event :=
  let text := renderText p in
  let ids := chatIdsForTopic s (Topic p) in
  let '(s', trace) := sendAll s text ids in
  (s', LogNewProposal p :: trace ++
       (if (0 <? length ids)%nat then [LogNotified (length ids)] else [])).

(** The loop over the sorted proposals. *)
Fixpoint processProposals (s : State) (proposals : list Proposal)
  : State * list Event :=
  match proposals with
  | [] => (s, [])
  | p :: rest =>
      let '(s1, updated) := setNewLastSeenId s (Id p) in
      if negb updated then processProposals s1 rest
      else
        let '(s2, t1) := notify s1 p in
        let '(s3, t2) := processProposals s2 rest in
        (s3, t1 ++ t2)
  end.

(** One iteration of [for range ticker.C]. *)
Definition tick (s : State) (f : Fetched) : Outcome :=
  let t0 := match getErr f with
            | Some err => [LogGetFailed err]
            | None => []
            end in
  match resp f with
  | None => Panic t0                     (* resp.Body with resp == nil *)
  | Some r =>
      let t1 := match readErr r with
                | Some err => [LogReadFailed err]
                | None => []
                end in
      match decoded r with
      | None => Next s (t0 ++ t1 ++ [LogParseFailed])
      | Some proposals =>
          let '(s', t2) := processProposals s (sortById proposals) in
          Next s' (t0 ++ t1 ++ t2)
      end
  end.

(** The proposals a trace announces, in order. *)
Definition dispatched (trace : list Event) : list N :=
  omap (λ e, match e with LogNewProposal p => Some (Id p) | _ => None end) trace.

(** The chats a trace delivers the text to. *)
Definition deliveries (trace : list Event) : list (Z * string) :=
  omap (λ e, match e with Send chat text => Some (chat, text) | _ => None end) trace.

End Poller.

(** ** Snapshot writer ([State.persist]) *)

(** The files of the working directory: name to contents. *)
Abbreviation Files := (gmap string string).

(** What the operating system answers during one call of [persist]. *)
Inductive WriteResult :=
  | Written
  | WriteFailed (err : string) (partial : string).
      (* the bytes that reached the file before the error *)

Record PersistIO := mkPersistIO {
  tempName : string + string;  (* [ioutil.TempFile]: name of the new file, or error *)
  written : WriteResult;       (* [os.WriteFile] *)
  renamed : bool               (* [os.Rename] succeeded; its error is dropped *)
}.

Inductive PersistLog :=
  | LogSerializeFailed (err : string)
  | LogFatal (err : string)
  | LogWriteFailed (err : string)
  | LogPersisted (bytes : nat).

Inductive PersistOutcome :=
  | Exited (files : Files) (log : list PersistLog)        (* [log.Fatal] *)
  | Returned (files : Files) (log : list PersistLog).

Section Persist.
(** [json.Marshal] of the state: the bytes or an error. *)
Variable jsonMarshal : State → string + string.

Definition persist (io : PersistIO) (s : State) (files : Files) : PersistOutcome :=
  match jsonMarshal s with
  | inr err => Returned files [LogSerializeFailed err]
  | inl data =>
      match tempName io with
      | inr err => Exited files [LogFatal err]
      | inl tmp =>
          let files1 := <[tmp := EmptyString]> files in
          let '(files2, log) :=
            match written io with
            | Written => (<[tmp := data]> files1, [])
            | WriteFailed err partial =>
                (<[tmp := partial]> files1, [LogWriteFailed err])
            end in
          let files3 :=
            if renamed io then
              match files2 !! tmp with
              | Some contents => <[STATE_PATH := contents]> (delete tmp files2)
              | None => files2
              end
            else files2 in
          Returned files3 (log ++ [LogPersisted (String.length data)])
      end
  end.

End Persist.

(** ** Command handling (the loop body of [main]) *)

Definition getHelpMessage : string :=
  "Enter /stop to unsubscribe (/start to resubscribe). " +:+
  "Use /block or /unblock to block or unblock proposals with a certain a topic; " +:+
  "use /blacklist to display the list of blocked topics. " +:+
  "Use /governance_only command to only receive governance proposals.".

Section Commands.
Context {order : RangeOrder}.

(** One update that carries a message: the new state and the reply passed
    to [bot.Send] ([None] where the loop [continue]s without sending). *)
Definition handleMessage (s : State) (id : Z) (text : string)
  : State * option string :=
  let words := splitWords text in
  match words with
  | [] => (s, None)
  | cmd :: args =>
      if String.eqb cmd "/start" then
        (addChatId s id, Some ("Subscribed." +:+ nl +:+ nl +:+ getHelpMessage))
      else if String.eqb cmd "/stop" then
        (removeChatId s id, Some "Unsubscribed.")
      else if String.eqb cmd "/block" || String.eqb cmd "/unblock" then
        match args with
        | [topic] =>
            let s' := if String.eqb cmd "/block" then blockTopic s id topic
                      else unblockTopic s id topic in
            (s', Some (blockedTopics s' id))
        | _ => (s, Some "Please specify one topic")
        end
      else if String.eqb cmd "/governance_only" then
        (blockTopic s id ALL_EXCEPT_GOVERNANCE,
         Some "From now on, you'll only see the governance proposals.")
      else if String.eqb cmd "/blacklist" then
        (s, Some (blockedTopics s id))
      else (s, Some getHelpMessage)
  end.

End Commands.

(** * Properties *)

(** ** Watermark *)

(** The classification of a sequence of ids against a running maximum. *)
Fixpoint classify (watermark : N) (ids : list N) : list bool :=
  match ids with
  | [] => []
  | id :: rest => (watermark <? id)%N :: classify (N.max watermark id) rest
  end.

Lemma setNewLastSeenId_max s id :
  LastSeenProposal (setNewLastSeenId s id).1 = N.max (LastSeenProposal s) id.
Proof.
  unfold setNewLastSeenId.
  destruct (N.ltb_spec (LastSeenProposal s) id); simpl; lia.
Qed.

Lemma setNewLastSeenId_chats s id :
  ChatIds (setNewLastSeenId s id).1 = ChatIds s.
Proof. unfold setNewLastSeenId. by destruct (_ <? _)%N. Qed.

Lemma setNewLastSeenId_updated s id :
  (setNewLastSeenId s id).2 = (LastSeenProposal s <? id)%N.
Proof. unfold setNewLastSeenId. by destruct (_ <? _)%N. Qed.

Lemma setNewLastSeenId_duplicate s id :
  (setNewLastSeenId s id).2 = false → (setNewLastSeenId s id).1 = s.
Proof. unfold setNewLastSeenId. by destruct (_ <? _)%N. Qed.

Lemma admitAll_spec ids : ∀ s,
  LastSeenProposal (admitAll s ids).1 = foldl N.max (LastSeenProposal s) ids
  ∧ ChatIds (admitAll s ids).1 = ChatIds s
  ∧ (admitAll s ids).2 = classify (LastSeenProposal s) ids.
Proof.
  induction ids as [|id rest IH]; intros s; simpl; [done|].
  pose proof (setNewLastSeenId_max s id) as Hmax.
  pose proof (setNewLastSeenId_chats s id) as Hchats.
  pose proof (setNewLastSeenId_updated s id) as Hupd.
  destruct (setNewLastSeenId s id) as [s1 b]; simpl in *.
  destruct (IH s1) as (Hw & Hc & Hb).
  destruct (admitAll s1 rest) as [s2 bs]; simpl in *.
  rewrite Hw, Hc, Hb, Hmax, Hchats, Hupd. done.
Qed.

Lemma foldl_max_foldr ids : ∀ w, foldl N.max w ids = N.max w (foldr N.max 0%N ids).
Proof.
  induction ids as [|id rest IH]; intros w; simpl; [lia|].
  rewrite IH. lia.
Qed.

(** C3.  Starting from watermark 0, after any sequence of calls of
    [setNewLastSeenId] the watermark is the maximum of the ids passed (0 for
    the empty sequence); the calls are classified against the running
    maximum of the earlier ids; a single call answers "new" exactly when its
    id is strictly above the watermark it finds, and a "duplicate" call
    leaves the state as it was. *)
Theorem admit_watermark_is_maximum (chats : gmap Z (gmap string bool)) (ids : list N) :
  LastSeenProposal (admitAll (mkState 0 chats) ids).1 = foldr N.max 0%N ids
  ∧ (admitAll (mkState 0 chats) ids).2 = classify 0 ids
  ∧ (∀ s id, (setNewLastSeenId s id).2 = true ↔ (LastSeenProposal s < id)%N)
  ∧ (∀ s id, (setNewLastSeenId s id).2 = true →
             LastSeenProposal (setNewLastSeenId s id).1 = id)
  ∧ (∀ s id, (setNewLastSeenId s id).2 = false → (setNewLastSeenId s id).1 = s).
Proof.
  destruct (admitAll_spec ids (mkState 0 chats)) as (Hw & _ & Hb).
  split_and!.
  - rewrite Hw, foldl_max_foldr. simpl. lia.
  - exact Hb.
  - intros s id. rewrite setNewLastSeenId_updated. apply N.ltb_lt.
  - intros s id. unfold setNewLastSeenId. by destruct (_ <? _)%N.
  - apply setNewLastSeenId_duplicate.
Qed.

(** ** Registry *)

Lemma flag_insert_eq (m : gmap string bool) k : flag (<[k := true]> m) k = true.
Proof. unfold flag. by rewrite lookup_insert_eq. Qed.

Lemma flag_insert_ne (m : gmap string bool) k k' b :
  k ≠ k' → flag (<[k := b]> m) k' = flag m k'.
Proof. intros. unfold flag. by rewrite lookup_insert_ne. Qed.

Lemma flag_delete_eq (m : gmap string bool) k : flag (delete k m) k = false.
Proof. unfold flag. by rewrite lookup_delete_eq. Qed.

Lemma flag_delete_ne (m : gmap string bool) k k' :
  k ≠ k' → flag (delete k m) k' = flag m k'.
Proof. intros. unfold flag. by rewrite lookup_delete_ne. Qed.

(** [notified] reads the filter set through [flag] only. *)
Lemma notified_ext topic (m1 m2 : gmap string bool) :
  (∀ k, flag m1 k = flag m2 k) → notified topic m1 = notified topic m2.
Proof. intros H. unfold notified. by rewrite !H. Qed.

Lemma blockTopic_too_long s id topic :
  MAX_TOPIC_LENGTH < String.length topic → blockTopic s id topic = s.
Proof.
  intros H. unfold blockTopic.
  destruct (Nat.ltb_spec MAX_TOPIC_LENGTH (String.length topic)); [done|lia].
Qed.

Lemma blockTopic_full s id topic blacklist :
  ChatIds s !! id = Some blacklist →
  MAX_BLOCKED_TOPICS ≤ size blacklist →
  blockTopic s id topic = s.
Proof.
  intros Hid Hfull. unfold blockTopic. rewrite Hid.
  destruct (_ <? String.length topic)%nat; [done|].
  destruct (Nat.ltb_spec (size blacklist) MAX_BLOCKED_TOPICS); [lia|done].
Qed.

Lemma blockTopic_unsubscribed s id topic :
  ChatIds s !! id = None → blockTopic s id topic = s.
Proof.
  intros Hid. unfold blockTopic. rewrite Hid. by destruct (_ <? _)%nat.
Qed.

Lemma blockTopic_adds s id topic blacklist :
  ChatIds s !! id = Some blacklist →
  String.length topic ≤ MAX_TOPIC_LENGTH →
  size blacklist < MAX_BLOCKED_TOPICS →
  ChatIds (blockTopic s id topic) !! id = Some (<[topic := true]> blacklist).
Proof.
  intros Hid Hlen Hsize. unfold blockTopic. rewrite Hid.
  destruct (Nat.ltb_spec MAX_TOPIC_LENGTH (String.length topic)); [lia|].
  destruct (Nat.ltb_spec (size blacklist) MAX_BLOCKED_TOPICS); [|lia].
  simpl. by rewrite lookup_insert_eq.
Qed.

(** Whatever [blockTopic] decides, the filter set it leaves is the old one
    or the old one with [topic] added. *)
Lemma blockTopic_cases s id topic blacklist :
  ChatIds s !! id = Some blacklist →
  blockTopic s id topic = s
  ∨ ChatIds (blockTopic s id topic) !! id = Some (<[topic := true]> blacklist).
Proof.
  intros Hid. unfold blockTopic. rewrite Hid.
  destruct (_ <? String.length topic)%nat; [by left|].
  destruct (_ <? _)%nat; [right|by left].
  simpl. by rewrite lookup_insert_eq.
Qed.

Lemma unblockTopic_lookup s id topic blacklist :
  ChatIds s !! id = Some blacklist →
  ChatIds (unblockTopic s id topic) !! id = Some (delete topic blacklist).
Proof.
  intros Hid. unfold unblockTopic. rewrite Hid. simpl. by rewrite lookup_insert_eq.
Qed.

(** C7.  For a subscribed recipient, a call of [blockTopic] on a filter set
    that already holds 30 (or more) entries, or with a label longer than 50
    bytes whatever the number of entries, leaves the state exactly as it
    was; the function returns nothing, so no error is reported. *)
Theorem blockTopic_limits_drop_silently s id topic blacklist :
  ChatIds s !! id = Some blacklist →
  MAX_BLOCKED_TOPICS ≤ size blacklist ∨ MAX_TOPIC_LENGTH < String.length topic →
  blockTopic s id topic = s.
Proof.
  intros Hid [Hfull|Hlong].
  - by eapply blockTopic_full.
  - by apply blockTopic_too_long.
Qed.

(** *** Substrings *)

Lemma prefix_app_r sub : ∀ s t,
  String.prefix sub s = true → String.prefix sub (s +:+ t) = true.
Proof.
  induction sub as [|a sub IH]; intros s t H.
  - by destruct (s +:+ t).
  - destruct s as [|b s]; simpl in *; [done|].
    destruct (ascii_dec a b); [by apply IH|done].
Qed.

Lemma prefix_refl s : String.prefix s s = true.
Proof.
  induction s as [|a s IH]; simpl; [done|].
  by destruct (ascii_dec a a).
Qed.

Lemma contains_unfold s sub :
  contains s sub =
  String.prefix sub s ||
  match s with
  | EmptyString => false
  | String _ rest => contains rest sub
  end.
Proof. by destruct s. Qed.

Lemma contains_app_l s t sub :
  contains s sub = true → contains (s +:+ t) sub = true.
Proof.
  induction s as [|a s IH]; intros H.
  - rewrite contains_unfold in H. rewrite orb_false_r in H.
    rewrite contains_unfold. apply orb_true_iff. left.
    by apply (prefix_app_r sub EmptyString t).
  - rewrite contains_unfold in H. apply orb_true_iff in H as [H|H].
    + rewrite contains_unfold. apply orb_true_iff. left. by apply prefix_app_r.
    + simpl. apply orb_true_iff. right. by apply IH.
Qed.

Lemma contains_app_r s t sub :
  contains t sub = true → contains (s +:+ t) sub = true.
Proof.
  intros H. induction s as [|a s IH]; simpl; [done|].
  apply orb_true_iff. by right.
Qed.

Lemma contains_refl s : contains s s = true.
Proof. rewrite contains_unfold, prefix_refl. done. Qed.

(** Every string of a list is part of the list joined by a separator. *)
Lemma contains_concat sep (topics : list string) t :
  t ∈ topics → contains (String.concat sep topics) t = true.
Proof.
  induction topics as [|x rest IH]; intros Hin; [by apply elem_of_nil in Hin|].
  destruct rest as [|y rest].
  - apply list_elem_of_singleton in Hin as ->. apply contains_refl.
  - change (String.concat sep (x :: y :: rest))
      with (x +:+ sep +:+ String.concat sep (y :: rest)).
    apply elem_of_cons in Hin as [->|Hin].
    + apply contains_app_l, contains_refl.
    + by apply contains_app_r, contains_app_r, IH.
Qed.

Section RegistryFacts.
Context {order : RangeOrder}.

(** Membership in the result of [chatIdsForTopic] does not depend on the
    iteration order. *)
Lemma elem_of_chatIdsForTopic s topic id :
  id ∈ chatIdsForTopic s topic ↔
  ∃ blacklist, ChatIds s !! id = Some blacklist ∧ notified topic blacklist = true.
Proof.
  unfold chatIdsForTopic. rewrite list_elem_of_fmap. split.
  - intros ([id' bl] & -> & Hin). apply list_elem_of_In, filter_In in Hin.
    destruct Hin as [Hin Hn]. apply list_elem_of_In in Hin.
    rewrite range_perm in Hin. apply elem_of_map_to_list in Hin. eauto.
  - intros (bl & Hid & Hn). exists (id, bl). split; [done|].
    apply list_elem_of_In, filter_In. split; [|done].
    apply list_elem_of_In. rewrite range_perm. by apply elem_of_map_to_list.
Qed.

Lemma notified_governance_only topic blacklist :
  flag blacklist ALL_EXCEPT_GOVERNANCE = true →
  notified topic blacklist = true ↔
  topic = TOPIC_GOVERNANCE ∧ flag blacklist TOPIC_GOVERNANCE = false.
Proof.
  intros Hs. unfold notified. rewrite Hs. simpl.
  case_bool_decide as Hg; simpl.
  - subst topic. destruct (flag blacklist TOPIC_GOVERNANCE); intuition congruence.
  - destruct (flag blacklist topic); intuition congruence.
Qed.

(** C4, as amended.  A subscribed recipient whose filter set holds the
    governance-only sentinel is notified about a topic exactly when the
    topic is "Governance" and the filter set does not block "Governance"
    itself; a recipient whose filter set is the sentinel alone is notified
    about "Governance" and about no other topic, the empty one included. *)
Theorem governance_only_eligibility s id blacklist topic :
  ChatIds s !! id = Some blacklist →
  flag blacklist ALL_EXCEPT_GOVERNANCE = true →
  (id ∈ chatIdsForTopic s topic ↔
     topic = TOPIC_GOVERNANCE ∧ flag blacklist TOPIC_GOVERNANCE = false)
  ∧ (blacklist = {[ALL_EXCEPT_GOVERNANCE := true]} →
     (id ∈ chatIdsForTopic s topic ↔ topic = TOPIC_GOVERNANCE)
     ∧ id ∈ chatIdsForTopic s TOPIC_GOVERNANCE
     ∧ id ∉ chatIdsForTopic s EmptyString).
Proof.
  intros Hid Hs.
  assert (Hmem : ∀ t, id ∈ chatIdsForTopic s t ↔
            t = TOPIC_GOVERNANCE ∧ flag blacklist TOPIC_GOVERNANCE = false).
  { intros t. rewrite elem_of_chatIdsForTopic.
    rewrite <- (notified_governance_only t blacklist Hs).
    split; [intros (bl & Hbl & Hn); congruence | eauto]. }
  split; [apply Hmem|].
  intros ->.
  assert (Hg : flag ({[ALL_EXCEPT_GOVERNANCE := true]} : gmap string bool)
                    TOPIC_GOVERNANCE = false) by done.
  split_and!.
  - rewrite Hmem. intuition.
  - by apply Hmem.
  - rewrite Hmem. intros [Hne _]. discriminate Hne.
Qed.

(** C6, as amended.  When [label] is not blocked for the recipient at the
    time of the call, [blockTopic] followed by [unblockTopic] with the same
    label leaves the recipient notified about exactly the topics it was
    notified about before, whether or not the [blockTopic] took effect. *)
Theorem block_then_unblock_restores s id blacklist label topic :
  ChatIds s !! id = Some blacklist →
  flag blacklist label = false →
  id ∈ chatIdsForTopic (unblockTopic (blockTopic s id label) id label) topic
  ↔ id ∈ chatIdsForTopic s topic.
Proof.
  intros Hid Hoff. rewrite !elem_of_chatIdsForTopic.
  assert (Hflags : ∀ m : gmap string bool,
            (m = blacklist ∨ m = <[label := true]> blacklist) →
            ∀ k, flag (delete label m) k = flag blacklist k).
  { intros m Hm k. destruct (decide (label = k)) as [<-|Hne].
    - by rewrite flag_delete_eq.
    - rewrite flag_delete_ne by done.
      destruct Hm as [->| ->]; [done|]. by rewrite flag_insert_ne. }
  assert (Hafter : ∃ m, ChatIds (unblockTopic (blockTopic s id label) id label) !! id
                        = Some (delete label m)
                      ∧ (m = blacklist ∨ m = <[label := true]> blacklist)).
  { destruct (blockTopic_cases s id label blacklist Hid) as [Heq|Hadd].
    - exists blacklist. rewrite Heq. split; [by apply unblockTopic_lookup|by left].
    - exists (<[label := true]> blacklist).
      split; [by apply unblockTopic_lookup|by right]. }
  destruct Hafter as (m & Hlook & Hm).
  rewrite Hlook, Hid.
  split; intros (bl & [= <-] & Hn); eexists; split; try done.
  - by rewrite <- (notified_ext topic _ _ (Hflags m Hm)).
  - by rewrite (notified_ext topic _ _ (Hflags m Hm)).
Qed.

(** *** Listing of the filter set *)

Lemma elem_of_enabledTopics (m : gmap string bool) topic :
  topic ∈ enabledTopics (range m) ↔ m !! topic = Some true.
Proof.
  unfold enabledTopics. rewrite list_elem_of_fmap. split.
  - intros ([t b] & -> & Hin). apply list_elem_of_In, filter_In in Hin.
    destruct Hin as [Hin Hb]. simpl in *. subst b.
    apply list_elem_of_In in Hin. rewrite range_perm in Hin.
    by apply elem_of_map_to_list in Hin.
  - intros Hm. exists (topic, true). split; [done|].
    apply list_elem_of_In, filter_In. split; [|done].
    apply list_elem_of_In. rewrite range_perm. by apply elem_of_map_to_list.
Qed.

Lemma NoDup_enabledTopics (m : gmap string bool) : NoDup (enabledTopics (range m)).
Proof.
  unfold enabledTopics.
  assert (Hnd : NoDup (range m).*1).
  { rewrite range_perm. apply NoDup_fst_map_to_list. }
  revert Hnd. generalize (range m). intros l.
  induction l as [|[t b] l IH]; simpl; [constructor|].
  rewrite NoDup_cons. intros [Hnin Hnd]. destruct b; simpl; [|by apply IH].
  apply NoDup_cons. split; [|by apply IH].
  intros Hin. apply Hnin. apply list_elem_of_fmap in Hin as (e & -> & He).
  apply list_elem_of_In, filter_In in He as [He _].
  apply list_elem_of_fmap. exists e. split; [done|]. by apply list_elem_of_In.
Qed.

Lemma listing_not_empty_message topics : listing topics ≠ EMPTY_LIST_MESSAGE.
Proof. unfold listing, EMPTY_LIST_MESSAGE. simpl. discriminate. Qed.

Lemma blockedTopics_nonempty s id (m : gmap string bool) :
  ChatIds s !! id = Some m → m ≠ ∅ →
  blockedTopics s id = listing (enabledTopics (range m)).
Proof.
  intros Hid Hne. unfold blockedTopics. rewrite Hid.
  destruct (Nat.eqb_spec (size m) 0) as [Hz|_]; [|done].
  by apply map_size_empty_iff in Hz.
Qed.

Lemma blockedTopics_empty s id :
  ChatIds s !! id = None ∨ ChatIds s !! id = Some ∅ →
  blockedTopics s id = EMPTY_LIST_MESSAGE.
Proof. unfold blockedTopics. by intros [-> | ->]. Qed.

Lemma listing_contains topics t :
  t ∈ topics → contains (listing topics) t = true.
Proof.
  intros Hin. unfold listing.
  by apply contains_app_r, contains_app_l, contains_concat.
Qed.

(** C8, as amended.  [blockedTopics] answers the sentence "Your list of
    blocked topics is empty." for a recipient without an entry or with an
    empty filter set; otherwise it answers "You've blocked these topics: ",
    the labels of the filter set whose flag is set joined by ", " and a
    full stop: each such label once, in the iteration order of the map (no
    sorting), the governance-only sentinel among them in the same form as
    any other label, so that every such label, the sentinel included, can
    be read in the answer; that answer is never the sentence of the empty
    case. *)
Theorem blockedTopics_lists_enabled_labels s id :
  match ChatIds s !! id with
  | None => blockedTopics s id = "Your list of blocked topics is empty."
  | Some m =>
      if decide (m = ∅)
      then blockedTopics s id = "Your list of blocked topics is empty."
      else ∃ topics,
             blockedTopics s id
               = "You've blocked these topics: " +:+ String.concat ", " topics
                 +:+ "."
             ∧ topics = enabledTopics (range m)
             ∧ NoDup topics
             ∧ (∀ t, t ∈ topics ↔ m !! t = Some true)
             ∧ (∀ t, m !! t = Some true → contains (blockedTopics s id) t = true)
             ∧ (ALL_EXCEPT_GOVERNANCE ∈ topics ↔
                  flag m ALL_EXCEPT_GOVERNANCE = true)
             ∧ (flag m ALL_EXCEPT_GOVERNANCE = true →
                  contains (blockedTopics s id) "AllButGovernance" = true)
             ∧ blockedTopics s id ≠ "Your list of blocked topics is empty."
  end.
Proof.
  destruct (ChatIds s !! id) as [m|] eqn:Hid;
    [|apply blockedTopics_empty; by left].
  destruct (decide (m = ∅)) as [->|Hne]; [apply blockedTopics_empty; by right|].
  pose proof (blockedTopics_nonempty s id m Hid Hne) as Heq.
  assert (Hsent : ALL_EXCEPT_GOVERNANCE ∈ enabledTopics (range m)
                  ↔ flag m ALL_EXCEPT_GOVERNANCE = true).
  { rewrite elem_of_enabledTopics. unfold flag.
    destruct (m !! ALL_EXCEPT_GOVERNANCE) as [[]|]; simpl; intuition congruence. }
  exists (enabledTopics (range m)). split_and!.
  - exact Heq.
  - reflexivity.
  - apply NoDup_enabledTopics.
  - apply elem_of_enabledTopics.
  - intros t Ht. rewrite Heq. by apply listing_contains, elem_of_enabledTopics.
  - exact Hsent.
  - intros Hs. rewrite Heq. by apply listing_contains, Hsent.
  - rewrite Heq. apply listing_not_empty_message.
Qed.

(** C10.  The governance-only mode is the label "AllButGovernance" in the
    recipient's filter set.  For a subscribed recipient: the command
    /governance_only is [blockTopic] with that label, as is /block with it;
    below the quota the call stores the label and from then on the
    recipient is notified exactly about "Governance", and only if it does
    not block "Governance"; at the quota the call changes nothing;
    [unblockTopic] with the label removes it, after which exactly the
    blocked topics are withheld; the answer of [blockedTopics] names the
    label among the blocked topics, in the text itself; and a recipient is
    not notified about the topic "AllButGovernance" exactly when it is in
    governance-only mode. *)
Theorem governance_only_is_a_blocked_label s id blacklist :
  ChatIds s !! id = Some blacklist →
  (handleMessage s id "/governance_only").1 = blockTopic s id ALL_EXCEPT_GOVERNANCE
  ∧ (handleMessage s id "/block AllButGovernance").1
      = blockTopic s id ALL_EXCEPT_GOVERNANCE
  ∧ (handleMessage s id "/unblock AllButGovernance").1
      = unblockTopic s id ALL_EXCEPT_GOVERNANCE
  ∧ (size blacklist < MAX_BLOCKED_TOPICS →
       ChatIds (blockTopic s id ALL_EXCEPT_GOVERNANCE) !! id
         = Some (<[ALL_EXCEPT_GOVERNANCE := true]> blacklist)
       ∧ ∀ topic, id ∈ chatIdsForTopic (blockTopic s id ALL_EXCEPT_GOVERNANCE) topic ↔
                  topic = TOPIC_GOVERNANCE
                  ∧ flag blacklist TOPIC_GOVERNANCE = false)
  ∧ (MAX_BLOCKED_TOPICS ≤ size blacklist →
       blockTopic s id ALL_EXCEPT_GOVERNANCE = s)
  ∧ (ChatIds (unblockTopic s id ALL_EXCEPT_GOVERNANCE) !! id
       = Some (delete ALL_EXCEPT_GOVERNANCE blacklist)
     ∧ ∀ topic, id ∈ chatIdsForTopic (unblockTopic s id ALL_EXCEPT_GOVERNANCE) topic ↔
                flag (delete ALL_EXCEPT_GOVERNANCE blacklist) topic = false)
  ∧ (flag blacklist ALL_EXCEPT_GOVERNANCE = true →
       ∃ topics,
         blockedTopics s id
           = "You've blocked these topics: " +:+ String.concat ", " topics +:+ "."
         ∧ ALL_EXCEPT_GOVERNANCE ∈ topics
         ∧ contains (blockedTopics s id) "AllButGovernance" = true)
  ∧ (id ∉ chatIdsForTopic s ALL_EXCEPT_GOVERNANCE ↔
       flag blacklist ALL_EXCEPT_GOVERNANCE = true)
  ∧ (id ∉ chatIdsForTopic s ALL_EXCEPT_GOVERNANCE →
       ∀ topic, id ∈ chatIdsForTopic s topic ↔
                topic = TOPIC_GOVERNANCE ∧ flag blacklist TOPIC_GOVERNANCE = false).
Proof.
  intros Hid.
  assert (Hmode : id ∉ chatIdsForTopic s ALL_EXCEPT_GOVERNANCE ↔
                  flag blacklist ALL_EXCEPT_GOVERNANCE = true).
  { rewrite elem_of_chatIdsForTopic. split.
    - intros Hnot. destruct (flag blacklist ALL_EXCEPT_GOVERNANCE) eqn:Hf; [done|].
      exfalso. apply Hnot. exists blacklist. split; [done|].
      unfold notified. by rewrite Hf.
    - intros Hf (bl & Hbl & Hn). rewrite Hid in Hbl. injection Hbl as <-.
      unfold notified in Hn. by rewrite Hf in Hn. }
  assert (Hgov : ∀ s' bl, ChatIds s' !! id = Some bl →
            flag bl ALL_EXCEPT_GOVERNANCE = true →
            ∀ topic, id ∈ chatIdsForTopic s' topic ↔
                     topic = TOPIC_GOVERNANCE ∧ flag bl TOPIC_GOVERNANCE = false).
  { intros s' bl Hbl Hf topic. rewrite elem_of_chatIdsForTopic.
    rewrite <- (notified_governance_only topic bl Hf).
    split; [intros (bl' & Hbl' & Hn); congruence | eauto]. }
  split_and!.
  - reflexivity.
  - reflexivity.
  - reflexivity.
  - intros Hsize.
    assert (Hlook : ChatIds (blockTopic s id ALL_EXCEPT_GOVERNANCE) !! id
                    = Some (<[ALL_EXCEPT_GOVERNANCE := true]> blacklist)).
    { apply blockTopic_adds; [done| |done]. unfold MAX_TOPIC_LENGTH. simpl. lia. }
    split; [done|]. intros topic.
    rewrite (Hgov _ _ Hlook (flag_insert_eq _ _) topic).
    by rewrite flag_insert_ne.
  - intros Hfull. by eapply blockTopic_full.
  - by apply unblockTopic_lookup.
  - pose proof (unblockTopic_lookup s id ALL_EXCEPT_GOVERNANCE blacklist Hid) as Hlook.
    intros topic. rewrite elem_of_chatIdsForTopic, Hlook.
    assert (Hn : notified topic (delete ALL_EXCEPT_GOVERNANCE blacklist)
                 = negb (flag (delete ALL_EXCEPT_GOVERNANCE blacklist) topic)).
    { unfold notified. rewrite flag_delete_eq. simpl. by destruct (flag _ topic). }
    split.
    + intros (bl & [= <-] & Hb). rewrite Hn in Hb. by apply negb_true_iff.
    + intros Hf. eexists. split; [done|]. rewrite Hn, Hf. done.
  - intros Hs.
    assert (Hin : ALL_EXCEPT_GOVERNANCE ∈ enabledTopics (range blacklist)).
    { apply elem_of_enabledTopics. unfold flag in Hs.
      by destruct (blacklist !! ALL_EXCEPT_GOVERNANCE) as [[]|]. }
    assert (Heq : blockedTopics s id = listing (enabledTopics (range blacklist))).
    { apply blockedTopics_nonempty; [done|]. by intros ->. }
    exists (enabledTopics (range blacklist)). split_and!; [exact Heq|exact Hin|].
    rewrite Heq. by apply listing_contains.
  - exact Hmode.
  - intros Hnot. apply (Hgov s blacklist Hid). by apply Hmode.
Qed.

End RegistryFacts.

(** ** Message text *)

(** Whatever [renderSummary] produces is part of the text. *)
Lemma renderText_contains_summary p sub :
  contains (renderSummary (Summary p)) sub = true →
  contains (renderText p) sub = true.
Proof.
  intros H. unfold renderText.
  do 8 apply contains_app_r. by apply contains_app_l.
Qed.


(** ** Feed poller *)

(** The ids that pass the watermark when offered in the given order. *)
Fixpoint admitted (watermark : N) (ids : list N) : list N :=
  match ids with
  | [] => []
  | id :: rest =>
      if (watermark <? id)%N then id :: admitted id rest
      else admitted watermark rest
  end.

Lemma admitted_bounds ids : ∀ w id,
  id ∈ admitted w ids → (w < id)%N ∧ id ∈ ids.
Proof.
  induction ids as [|a rest IH]; intros w id; simpl; [by rewrite elem_of_nil|].
  destruct (N.ltb_spec w a) as [Hlt|Hge].
  - rewrite !elem_of_cons. intros [->|Hin]; [by auto|].
    apply IH in Hin as [? ?]. split; [lia|by right].
  - intros Hin. apply IH in Hin as [? ?]. split; [done|by apply elem_of_cons; right].
Qed.

Lemma admitted_increasing ids : ∀ w, StronglySorted N.lt (admitted w ids).
Proof.
  induction ids as [|a rest IH]; intros w; simpl; [constructor|].
  destruct (w <? a)%N; [|apply IH].
  constructor; [apply IH|].
  apply Forall_forall. intros id Hin. by apply admitted_bounds in Hin as [? _].
Qed.

(** On ascending input nothing above the watermark is lost. *)
Lemma admitted_complete ids :
  StronglySorted N.le ids →
  ∀ w id, id ∈ ids → (w < id)%N → id ∈ admitted w ids.
Proof.
  induction 1 as [|a rest Hsorted IH Hall]; intros w id Hin Hlt.
  - by apply elem_of_nil in Hin.
  - simpl. rewrite Forall_forall in Hall.
    destruct (N.ltb_spec w a) as [Hwa|Hwa].
    + apply elem_of_cons in Hin as [->|Hin]; [by left|].
      destruct (decide (id = a)) as [->|Hne]; [by left|].
      right. apply IH; [done|]. specialize (Hall id Hin). lia.
    + apply elem_of_cons in Hin as [->|Hin]; [lia|]. by apply IH.
Qed.

Global Instance idLe_total : Total idLe.
Proof. intros p q. unfold idLe. lia. Qed.

Global Instance idLe_trans : Transitive idLe.
Proof. intros p q r. unfold idLe. lia. Qed.

Lemma sortById_ids_ascending proposals :
  StronglySorted N.le (Id <$> sortById proposals).
Proof.
  pose proof (StronglySorted_merge_sort idLe proposals) as H.
  fold (sortById proposals) in H.
  induction H as [|p rest _ IH Hall]; simpl; constructor; [done|].
  apply Forall_fmap. exact Hall.
Qed.

Section PollerFacts.
Context {order : RangeOrder}.
Variable send : Z → string → option string.

Lemma sendAll_spec text ids : ∀ s,
  LastSeenProposal (sendAll send s text ids).1 = LastSeenProposal s
  ∧ dispatched (sendAll send s text ids).2 = []
  ∧ deliveries (sendAll send s text ids).2 = (λ id, (id, text)) <$> ids.
Proof.
  induction ids as [|id rest IH]; intros s; simpl; [done|].
  destruct (send id text) as [err|].
  - destruct (contains err _).
    + destruct (IH (removeChatId s id)) as (Hw & Hd & Hs).
      destruct (sendAll send (removeChatId s id) text rest); simpl in *.
      by rewrite Hw, Hd, Hs.
    + destruct (IH s) as (Hw & Hd & Hs).
      destruct (sendAll send s text rest); simpl in *.
      by rewrite Hw, Hd, Hs.
  - destruct (IH s) as (Hw & Hd & Hs).
    destruct (sendAll send s text rest); simpl in *.
    by rewrite Hw, Hd, Hs.
Qed.

Lemma dispatched_app t1 t2 : dispatched (t1 ++ t2) = dispatched t1 ++ dispatched t2.
Proof. apply omap_app. Qed.

Lemma notify_spec s p :
  LastSeenProposal (notify send s p).1 = LastSeenProposal s
  ∧ dispatched (notify send s p).2 = [Id p].
Proof.
  unfold notify.
  destruct (sendAll_spec (renderText p) (chatIdsForTopic s (Topic p)) s)
    as (Hw & Hd & _).
  destruct (sendAll send s (renderText p) (chatIdsForTopic s (Topic p)))
    as [s' trace]; simpl in *.
  split; [done|]. unfold dispatched in *. simpl. rewrite omap_app, Hd.
  by destruct (0 <? _)%nat.
Qed.

Lemma processProposals_spec proposals : ∀ s,
  LastSeenProposal (processProposals send s proposals).1
    = foldl N.max (LastSeenProposal s) (Id <$> proposals)
  ∧ dispatched (processProposals send s proposals).2
    = admitted (LastSeenProposal s) (Id <$> proposals).
Proof.
  induction proposals as [|p rest IH]; intros s; simpl; [done|].
  unfold setNewLastSeenId.
  destruct (N.ltb_spec (LastSeenProposal s) (Id p)) as [Hlt|Hge]; simpl.
  - destruct (notify_spec (mkState (Id p) (ChatIds s)) p) as (Hw & Hd).
    destruct (notify send (mkState (Id p) (ChatIds s)) p) as [s2 t1]; simpl in *.
    destruct (IH s2) as (Hw' & Hd').
    destruct (processProposals send s2 rest) as [s3 t2]; simpl in *.
    rewrite Hw', Hw, dispatched_app, Hd, Hd', Hw. simpl.
    split; [|done]. f_equal. lia.
  - destruct (IH s) as (Hw' & Hd'). rewrite Hw', Hd'.
    split; [|done]. f_equal. lia.
Qed.

(** Proposals at or below the watermark change nothing and send nothing. *)
Lemma processProposals_seen proposals s :
  Forall (λ p, (Id p <= LastSeenProposal s)%N) proposals →
  processProposals send s proposals = (s, []).
Proof.
  induction 1 as [|p rest Hp _ IH]; simpl; [done|].
  unfold setNewLastSeenId.
  destruct (N.ltb_spec (LastSeenProposal s) (Id p)); [lia|]. simpl. exact IH.
Qed.

(** [sort.Slice] may return any ascending arrangement of the proposals; the
    set of ids dispatched is the same for each of them. *)
Lemma processProposals_any_ascending (arranged proposals : list Proposal) s :
  arranged ≡ₚ proposals →
  StronglySorted idLe arranged →
  StronglySorted N.lt (dispatched (processProposals send s arranged).2)
  ∧ ∀ id, id ∈ dispatched (processProposals send s arranged).2 ↔
          (LastSeenProposal s < id)%N ∧ id ∈ Id <$> proposals.
Proof.
  intros Hperm Hsorted.
  destruct (processProposals_spec arranged s) as (_ & Hd). rewrite Hd.
  split; [apply admitted_increasing|].
  intros id. rewrite <- Hperm. split.
  - intros Hin. by apply admitted_bounds in Hin.
  - intros [Hlt Hin]. apply admitted_complete; [|done|done].
    clear -Hsorted. induction Hsorted as [|p rest _ IH Hall]; simpl.
    + constructor.
    + constructor; [done|]. apply Forall_fmap. exact Hall.
Qed.

Lemma foldl_max_ge ids : ∀ w id,
  id ∈ ids → (id <= foldl N.max w ids)%N.
Proof.
  intros w id Hin. rewrite foldl_max_foldr.
  induction ids as [|a rest IH]; [by apply elem_of_nil in Hin|].
  simpl. apply elem_of_cons in Hin as [->|Hin]; [lia|]. specialize (IH Hin). lia.
Qed.

(** C2, what the code does.  On a tick whose [http.Get] fails (nil response
    and an error) the failure is logged and the loop body goes on to read
    [resp.Body] of the nil response: the tick ends in a panic, not in the
    next iteration. *)
Theorem tick_get_failed_panics s err :
  tick send s (mkFetched None (Some err)) = Panic [LogGetFailed err].
Proof. reflexivity. Qed.

(** A body that does not parse ends the tick with the state as it was. *)
Lemma tick_parse_failed s r e :
  decoded r = None →
  ∃ trace, tick send s (mkFetched (Some r) e) = Next s trace
           ∧ LogParseFailed ∈ trace
           ∧ dispatched trace = [] ∧ deliveries trace = [].
Proof.
  intros Hd. unfold tick. simpl. rewrite Hd. eexists. split; [done|].
  split; [set_solver|]. by destruct e, (readErr r).
Qed.

End PollerFacts.

(** ** Concrete runs *)

Definition deliverAll : Z → string → option string := λ _ _, None.

Definition fetched (proposals : list Proposal) : Fetched :=
  mkFetched (Some (mkResponse None (Some proposals))) None.

Definition proposal5 : Proposal := mkProposal "Five" "X" 5 "" 1.
Definition proposal3 : Proposal := mkProposal "Three" "Governance" 3 "" 1.

(** Recipient 1 blocks "X", recipient 2 blocks nothing. *)
Definition twoChats : State :=
  mkState 0 (<[1%Z := {["X" := true]}]> (<[2%Z := ∅]> ∅)).


(** ** Snapshot writer *)

(** C1, what the code does.  When [os.WriteFile] fails after [partial] has
    reached the temporary file, [persist] logs the failure and still renames
    the temporary file: the snapshot path then holds [partial].  With the
    previous snapshot "OLD", the new data "NEW" and a write that fails after
    one byte, the snapshot path ends up holding "N". *)
Theorem persist_renames_after_failed_write
    (data tmp err partial : string) (s : State) (files : Files) :
  persist (λ _, inl data) (mkPersistIO (inl tmp) (WriteFailed err partial) true)
          s files
  = Returned (<[STATE_PATH := partial]>
                (delete tmp (<[tmp := partial]> (<[tmp := EmptyString]> files))))
             [LogWriteFailed err; LogPersisted (String.length data)]
  ∧ match persist (λ _, inl "NEW")
            (mkPersistIO (inl "state.json_tmp_1") (WriteFailed "disk full" "N") true)
            s {[STATE_PATH := "OLD"]} with
    | Returned files' _ => files' !! STATE_PATH = Some "N"
    | Exited _ _ => False
    end.
Proof.
  split.
  - unfold persist. simpl. by rewrite lookup_insert_eq.
  - vm_compute. done.
Qed.

Lemma persist_written data tmp s (files : Files) :
  persist (λ _, inl data) (mkPersistIO (inl tmp) Written true) s files
  = Returned (<[STATE_PATH := data]>
                (delete tmp (<[tmp := data]> (<[tmp := EmptyString]> files))))
             [LogPersisted (String.length data)].
Proof. unfold persist. simpl. by rewrite lookup_insert_eq. Qed.

(** A failure of [ioutil.TempFile] ends the process. *)
Lemma persist_tempfile_failed_exits data err io s (files : Files) :
  tempName io = inr err →
  persist (λ _, inl data) io s files = Exited files [LogFatal err].
Proof. intros H. unfold persist. by rewrite H. Qed.

(** ** Instances of the theorems on concrete states, and counterexamples *)

Fixpoint repeatChar (n : nat) (c : ascii) : string :=
  match n with
  | O => EmptyString
  | S n' => String c (repeatChar n' c)
  end.

(** A filter set with 30 entries, "0" to "29". *)
Definition thirtyTopics : gmap string bool :=
  list_to_map ((λ n, (decimal (N.of_nat n), true)) <$> seq 0 30).

Definition fullChat : State := mkState 0 {[1%Z := thirtyTopics]}.

Definition governanceOnlyChat : State :=
  mkState 0 {[1%Z := {[ALL_EXCEPT_GOVERNANCE := true]}]}.

(** Governance-only, with "Governance" blocked as well. *)
Definition governanceBlockedChat : State :=
  mkState 0 {[1%Z := <[TOPIC_GOVERNANCE := true]> {[ALL_EXCEPT_GOVERNANCE := true]}]}.

Definition spamChat : State := mkState 0 {[1%Z := {["spam" := true]}]}.

(** Governance-only, with "spam" blocked as well. *)
Definition governanceSpamChat : State :=
  mkState 0 {[1%Z := <["spam" := true]> {[ALL_EXCEPT_GOVERNANCE := true]}]}.

Definition abcChat : State :=
  mkState 0 {[1%Z := <["a" := true]> (<["b" := true]> {["c" := true]})]}.

Definition longSummary : Proposal :=
  mkProposal "Title" "Topic" 1 (repeatChar 2047 "a") 1.

Section Instances.
Existing Instance listOrder.

Lemma blockTopic_limits_drop_silently_witness :
  ChatIds fullChat !! 1%Z = Some thirtyTopics
  ∧ (MAX_BLOCKED_TOPICS ≤ size thirtyTopics
     ∨ MAX_TOPIC_LENGTH < String.length "spam")
  ∧ blockTopic fullChat 1 "spam" = fullChat.
Proof.
  assert (H1 : ChatIds fullChat !! 1%Z = Some thirtyTopics) by reflexivity.
  assert (H2 : MAX_BLOCKED_TOPICS ≤ size thirtyTopics
               ∨ MAX_TOPIC_LENGTH < String.length "spam")
    by (left; vm_compute; lia).
  exact (conj H1 (conj H2
           (blockTopic_limits_drop_silently fullChat 1 "spam" thirtyTopics H1 H2))).
Defined.

Lemma governance_only_eligibility_witness :
  ChatIds governanceOnlyChat !! 1%Z = Some {[ALL_EXCEPT_GOVERNANCE := true]}
  ∧ flag {[ALL_EXCEPT_GOVERNANCE := true]} ALL_EXCEPT_GOVERNANCE = true
  ∧ (1%Z ∈ chatIdsForTopic governanceOnlyChat "Governance" ↔
       "Governance" = TOPIC_GOVERNANCE
       ∧ flag {[ALL_EXCEPT_GOVERNANCE := true]} TOPIC_GOVERNANCE = false).
Proof.
  assert (H1 : ChatIds governanceOnlyChat !! 1%Z
               = Some {[ALL_EXCEPT_GOVERNANCE := true]}) by reflexivity.
  assert (H2 : flag {[ALL_EXCEPT_GOVERNANCE := true]} ALL_EXCEPT_GOVERNANCE = true)
    by reflexivity.
  exact (conj H1 (conj H2
           (proj1 (governance_only_eligibility governanceOnlyChat 1 _
                     "Governance" H1 H2)))).
Defined.

(** C4 as stated fails: the recipient holds the sentinel, the topic is
    "Governance", and the recipient is not notified, because "Governance"
    is blocked too. *)
Lemma governance_only_eligibility_counterexample :
  ChatIds governanceBlockedChat !! 1%Z
    = Some (<[TOPIC_GOVERNANCE := true]> {[ALL_EXCEPT_GOVERNANCE := true]})
  ∧ flag (<[TOPIC_GOVERNANCE := true]> {[ALL_EXCEPT_GOVERNANCE := true]})
         ALL_EXCEPT_GOVERNANCE = true
  ∧ chatIdsForTopic governanceBlockedChat "Governance" = []
  ∧ ¬ (1%Z ∈ chatIdsForTopic governanceBlockedChat "Governance"
       ↔ "Governance" = TOPIC_GOVERNANCE).
Proof.
  split_and!; try reflexivity.
  intros [_ H]. specialize (H eq_refl). vm_compute in H. by apply elem_of_nil in H.
Qed.

Lemma block_then_unblock_restores_witness :
  ChatIds spamChat !! 1%Z = Some {["spam" := true]}
  ∧ flag {["spam" := true]} "X" = false
  ∧ (1%Z ∈ chatIdsForTopic (unblockTopic (blockTopic spamChat 1 "X") 1 "X") "X"
     ↔ 1%Z ∈ chatIdsForTopic spamChat "X").
Proof.
  assert (H1 : ChatIds spamChat !! 1%Z = Some {["spam" := true]}) by reflexivity.
  assert (H2 : flag {["spam" := true]} "X" = false) by reflexivity.
  exact (conj H1 (conj H2
           (block_then_unblock_restores spamChat 1 _ "X" "X" H1 H2))).
Defined.

(** C6 as stated fails: recipient 1 blocks "spam" and is not notified about
    it; after [blockTopic] and [unblockTopic] with "spam" it is. *)
Lemma block_then_unblock_restores_counterexample :
  chatIdsForTopic spamChat "spam" = []
  ∧ chatIdsForTopic (unblockTopic (blockTopic spamChat 1 "spam") 1 "spam") "spam"
    = [1%Z]
  ∧ ¬ (1%Z ∈ chatIdsForTopic
               (unblockTopic (blockTopic spamChat 1 "spam") 1 "spam") "spam"
       ↔ 1%Z ∈ chatIdsForTopic spamChat "spam").
Proof.
  split_and!; try reflexivity.
  intros [H _]. vm_compute in H.
  assert (Hin : 1%Z ∈ [1%Z]) by apply list_elem_of_here.
  specialize (H Hin). by apply elem_of_nil in H.
Qed.

Lemma blockedTopics_lists_enabled_labels_witness :
  contains (blockedTopics governanceSpamChat 1) "AllButGovernance" = true
  ∧ contains (blockedTopics governanceSpamChat 1) "spam" = true
  ∧ blockedTopics governanceSpamChat 1 ≠ "Your list of blocked topics is empty."
  ∧ blockedTopics governanceOnlyChat 2 = "Your list of blocked topics is empty.".
Proof.
  pose proof (blockedTopics_lists_enabled_labels governanceSpamChat 1) as H.
  pose proof (blockedTopics_lists_enabled_labels governanceOnlyChat 2) as H0.
  change (ChatIds governanceSpamChat !! 1%Z)
    with (Some (<["spam" := true]> {[ALL_EXCEPT_GOVERNANCE := true]}
                : gmap string bool)) in H.
  change (ChatIds governanceOnlyChat !! 2%Z)
    with (@None (gmap string bool)) in H0.
  destruct (decide ((<["spam" := true]> {[ALL_EXCEPT_GOVERNANCE := true]}
                     : gmap string bool) = ∅)) as [He|_].
  { exfalso. by apply (insert_non_empty (M := gmap string) _ "spam" true) in He. }
  destruct H as (topics & _ & _ & _ & _ & Hall & _ & Hsent & Hne).
  exact (conj (Hsent eq_refl) (conj (Hall "spam" eq_refl) (conj Hne H0))).
Defined.

(** C8 as stated fails: the sentinel is listed, in the form of any other
    label, and the labels come in the iteration order of the map, here
    "c, a, b". *)
Lemma blockedTopics_sorted_without_sentinel_counterexample :
  blockedTopics governanceOnlyChat 1
    = "You've blocked these topics: AllButGovernance."
  ∧ blockedTopics spamChat 1 = "You've blocked these topics: spam."
  ∧ blockedTopics abcChat 1 = "You've blocked these topics: c, a, b.".
Proof. split_and!; reflexivity. Qed.



Lemma governance_only_is_a_blocked_label_witness :
  ChatIds spamChat !! 1%Z = Some {["spam" := true]}
  ∧ ChatIds (blockTopic spamChat 1 ALL_EXCEPT_GOVERNANCE) !! 1%Z
      = Some (<[ALL_EXCEPT_GOVERNANCE := true]> {["spam" := true]})
  ∧ 1%Z ∈ chatIdsForTopic (blockTopic spamChat 1 ALL_EXCEPT_GOVERNANCE) "Governance"
  ∧ (1%Z ∉ chatIdsForTopic (blockTopic spamChat 1 ALL_EXCEPT_GOVERNANCE) "Other")
  ∧ blockTopic fullChat 1 ALL_EXCEPT_GOVERNANCE = fullChat
  ∧ contains (blockedTopics governanceSpamChat 1) "AllButGovernance" = true
  ∧ (1%Z ∉ chatIdsForTopic governanceSpamChat ALL_EXCEPT_GOVERNANCE)
  ∧ 1%Z ∈ chatIdsForTopic governanceSpamChat "Governance".
Proof.
  assert (H1 : ChatIds spamChat !! 1%Z = Some {["spam" := true]}) by reflexivity.
  assert (H2 : ChatIds fullChat !! 1%Z = Some thirtyTopics) by reflexivity.
  assert (H3 : size ({["spam" := true]} : gmap string bool) < MAX_BLOCKED_TOPICS)
    by (vm_compute; lia).
  assert (H4 : MAX_BLOCKED_TOPICS ≤ size thirtyTopics) by (vm_compute; lia).
  assert (H5 : ChatIds governanceSpamChat !! 1%Z
               = Some (<["spam" := true]> {[ALL_EXCEPT_GOVERNANCE := true]}))
    by reflexivity.
  pose proof (governance_only_is_a_blocked_label spamChat 1 _ H1)
    as (_ & _ & _ & Hadd & _).
  pose proof (governance_only_is_a_blocked_label fullChat 1 _ H2)
    as (_ & _ & _ & _ & Hfull & _).
  pose proof (governance_only_is_a_blocked_label governanceSpamChat 1 _ H5)
    as (_ & _ & _ & _ & _ & _ & Hlist & Hmode & Honly).
  destruct (Hadd H3) as [Hlook Hiff].
  destruct (Hlist eq_refl) as (topics & _ & _ & Hcontains).
  assert (Hoff : 1%Z ∉ chatIdsForTopic governanceSpamChat ALL_EXCEPT_GOVERNANCE)
    by (apply Hmode; reflexivity).
  split_and!.
  - exact H1.
  - exact Hlook.
  - apply Hiff. by split.
  - intros Hin. apply Hiff in Hin as [Hne _]. discriminate Hne.
  - exact (Hfull H4).
  - exact Hcontains.
  - exact Hoff.
  - apply (Honly Hoff). by split.
Defined.

End Instances.

(** * Further properties of the code *)

(** ** Watermark from any start *)

Lemma foldr_max_perm (ids ids' : list N) :
  ids ≡ₚ ids' → foldr N.max 0%N ids = foldr N.max 0%N ids'.
Proof.
  induction 1 as [|x l l' _ IH|x y l|l l' l'' _ IH1 _ IH2]; simpl.
  - done.
  - by rewrite IH.
  - lia.
  - by rewrite IH1.
Qed.

(** From any watermark, a sequence of calls of [setNewLastSeenId] ends at
    the maximum of the watermark and the ids; the watermark never goes
    down, the registry is not touched, and the order of the calls does not
    matter for the final watermark. *)
Theorem admitAll_from_any_watermark (s : State) (ids : list N) :
  LastSeenProposal (admitAll s ids).1
    = N.max (LastSeenProposal s) (foldr N.max 0%N ids)
  ∧ (LastSeenProposal s <= LastSeenProposal (admitAll s ids).1)%N
  ∧ ChatIds (admitAll s ids).1 = ChatIds s
  ∧ (∀ ids', ids ≡ₚ ids' →
       LastSeenProposal (admitAll s ids').1 = LastSeenProposal (admitAll s ids).1).
Proof.
  assert (Hmax : ∀ l, LastSeenProposal (admitAll s l).1
                      = N.max (LastSeenProposal s) (foldr N.max 0%N l)).
  { intros l. destruct (admitAll_spec l s) as (Hw & _). by rewrite Hw, foldl_max_foldr. }
  split_and!.
  - apply Hmax.
  - rewrite Hmax. lia.
  - by destruct (admitAll_spec ids s) as (_ & Hc & _).
  - intros ids' Hperm. rewrite !Hmax. by rewrite (foldr_max_perm _ _ Hperm).
Qed.

(** ** Registry operations *)

Lemma State_eta s : mkState (LastSeenProposal s) (ChatIds s) = s.
Proof. by destruct s. Qed.

Lemma notified_empty topic : notified topic ∅ = true.
Proof. reflexivity. Qed.

(** A filter set with fewer raised flags withholds less. *)
Lemma notified_mono topic (m1 m2 : gmap string bool) :
  (∀ k, flag m1 k = true → flag m2 k = true) →
  notified topic m2 = true → notified topic m1 = true.
Proof.
  intros Hsub. unfold notified.
  pose proof (Hsub topic) as Ht. pose proof (Hsub ALL_EXCEPT_GOVERNANCE) as Hs.
  destruct (flag m1 topic), (flag m1 ALL_EXCEPT_GOVERNANCE),
           (flag m2 topic), (flag m2 ALL_EXCEPT_GOVERNANCE);
    simpl; intuition congruence.
Qed.

Lemma blockTopic_other s id topic id' :
  id' ≠ id → ChatIds (blockTopic s id topic) !! id' = ChatIds s !! id'.
Proof.
  intros Hne. unfold blockTopic.
  destruct (_ <? String.length topic)%nat; [done|].
  destruct (ChatIds s !! id) as [m|]; [|done].
  destruct (_ <? _)%nat; [|done]. simpl. by rewrite lookup_insert_ne.
Qed.

Lemma unblockTopic_other s id topic id' :
  id' ≠ id → ChatIds (unblockTopic s id topic) !! id' = ChatIds s !! id'.
Proof.
  intros Hne. unfold unblockTopic.
  destruct (ChatIds s !! id) as [m|]; [|done]. simpl. by rewrite lookup_insert_ne.
Qed.

Lemma blockTopic_watermark s id topic :
  LastSeenProposal (blockTopic s id topic) = LastSeenProposal s.
Proof.
  unfold blockTopic. destruct (_ <? String.length topic)%nat; [done|].
  destruct (ChatIds s !! id) as [m|]; [|done]. by destruct (_ <? _)%nat.
Qed.

Lemma unblockTopic_watermark s id topic :
  LastSeenProposal (unblockTopic s id topic) = LastSeenProposal s.
Proof. unfold unblockTopic. by destruct (ChatIds s !! id). Qed.

Lemma unblockTopic_unsubscribed s id topic :
  ChatIds s !! id = None → unblockTopic s id topic = s.
Proof. intros H. unfold unblockTopic. by rewrite H. Qed.

Section MoreRegistryFacts.
Context {order : RangeOrder}.

(** [addChatId]: the recipient gets an empty filter set whatever it had
    before, so it is notified about every topic and its listing is the
    sentence of the empty case; subscribing twice is subscribing once;
    other recipients and the watermark are not touched. *)
Theorem subscribe_resets_filters (s : State) (id : Z) :
  ChatIds (addChatId s id) !! id = Some ∅
  ∧ (∀ topic, id ∈ chatIdsForTopic (addChatId s id) topic)
  ∧ blockedTopics (addChatId s id) id = EMPTY_LIST_MESSAGE
  ∧ addChatId (addChatId s id) id = addChatId s id
  ∧ (∀ id', id' ≠ id → ChatIds (addChatId s id) !! id' = ChatIds s !! id')
  ∧ LastSeenProposal (addChatId s id) = LastSeenProposal s.
Proof.
  assert (Hl : ChatIds (addChatId s id) !! id = Some ∅)
    by (simpl; apply lookup_insert_eq).
  split_and!.
  - exact Hl.
  - intros topic. apply elem_of_chatIdsForTopic. eauto using notified_empty.
  - apply blockedTopics_empty. by right.
  - unfold addChatId. simpl. by rewrite insert_insert_eq.
  - intros id' Hne. simpl. by rewrite lookup_insert_ne.
  - reflexivity.
Qed.

(** [removeChatId]: the recipient is notified about no topic afterwards,
    cannot block topics until it subscribes again, and its listing is the
    sentence of the empty case; removing twice is removing once, removing a
    recipient that has no entry changes nothing; the notifications of other
    recipients are as before. *)
Theorem unsubscribe_stops_notifications (s : State) (id : Z) :
  (∀ topic, id ∉ chatIdsForTopic (removeChatId s id) topic)
  ∧ (∀ topic, blockTopic (removeChatId s id) id topic = removeChatId s id)
  ∧ blockedTopics (removeChatId s id) id = EMPTY_LIST_MESSAGE
  ∧ removeChatId (removeChatId s id) id = removeChatId s id
  ∧ (ChatIds s !! id = None → removeChatId s id = s)
  ∧ (∀ id' topic, id' ≠ id →
       (id' ∈ chatIdsForTopic (removeChatId s id) topic
        ↔ id' ∈ chatIdsForTopic s topic))
  ∧ LastSeenProposal (removeChatId s id) = LastSeenProposal s.
Proof.
  assert (Hl : ChatIds (removeChatId s id) !! id = None)
    by (simpl; apply lookup_delete_eq).
  split_and!.
  - intros topic Hin. apply elem_of_chatIdsForTopic in Hin as (m & Hm & _).
    congruence.
  - intros topic. by apply blockTopic_unsubscribed.
  - apply blockedTopics_empty. by left.
  - unfold removeChatId. simpl. by rewrite delete_delete_eq.
  - intros Hnone. unfold removeChatId. rewrite delete_id by done. apply State_eta.
  - intros id' topic Hne. rewrite !elem_of_chatIdsForTopic. simpl.
    by rewrite lookup_delete_ne.
  - reflexivity.
Qed.

(** [blockTopic] within the limits: the recipient is no longer notified
    about the topic, and the answer of [blockedTopics] is "You've blocked
    these topics: " followed by labels among which the topic is, so that
    the topic can be read in the answer. *)
Theorem blockTopic_withholds_topic s id blacklist topic :
  ChatIds s !! id = Some blacklist →
  String.length topic ≤ MAX_TOPIC_LENGTH →
  size blacklist < MAX_BLOCKED_TOPICS →
  (id ∉ chatIdsForTopic (blockTopic s id topic) topic)
  ∧ (∃ topics,
       blockedTopics (blockTopic s id topic) id
         = "You've blocked these topics: " +:+ String.concat ", " topics +:+ "."
       ∧ topic ∈ topics)
  ∧ contains (blockedTopics (blockTopic s id topic) id) topic = true.
Proof.
  intros Hid Hlen Hsize.
  pose proof (blockTopic_adds s id topic blacklist Hid Hlen Hsize) as Hl.
  assert (Heq : blockedTopics (blockTopic s id topic) id
                = listing (enabledTopics (range (<[topic := true]> blacklist)))).
  { apply blockedTopics_nonempty; [done|]. apply insert_non_empty. }
  assert (Hin : topic ∈ enabledTopics (range (<[topic := true]> blacklist))).
  { apply elem_of_enabledTopics. apply lookup_insert_eq. }
  split_and!.
  - intros Hin'. apply elem_of_chatIdsForTopic in Hin' as (m & Hm & Hn).
    rewrite Hl in Hm. injection Hm as <-.
    unfold notified in Hn. by rewrite flag_insert_eq in Hn.
  - exists (enabledTopics (range (<[topic := true]> blacklist))). by split.
  - rewrite Heq. by apply listing_contains.
Qed.

(** Blocking the same topic twice is blocking it once, also at the limits. *)
Theorem blockTopic_idempotent (s : State) (id : Z) (topic : string) :
  blockTopic (blockTopic s id topic) id topic = blockTopic s id topic.
Proof.
  unfold blockTopic.
  destruct (MAX_TOPIC_LENGTH <? String.length topic)%nat; [done|].
  destruct (ChatIds s !! id) as [m|] eqn:Hid; [|by rewrite Hid].
  destruct (size m <? MAX_BLOCKED_TOPICS)%nat eqn:Hsize;
    [|by rewrite Hid, Hsize].
  simpl. rewrite lookup_insert_eq.
  destruct (size (<[topic:=true]> m) <? MAX_BLOCKED_TOPICS)%nat; [|done].
  by rewrite !insert_insert_eq.
Qed.

(** [blockTopic] and [unblockTopic] change the filter set of the one
    recipient only: the entries of the others, the watermark, and whether
    the recipient is subscribed stay as they are. *)
Theorem filter_changes_are_local (s : State) (id : Z) (topic : string) :
  (∀ id', id' ≠ id →
     ChatIds (blockTopic s id topic) !! id' = ChatIds s !! id'
     ∧ ChatIds (unblockTopic s id topic) !! id' = ChatIds s !! id')
  ∧ LastSeenProposal (blockTopic s id topic) = LastSeenProposal s
  ∧ LastSeenProposal (unblockTopic s id topic) = LastSeenProposal s
  ∧ (is_Some (ChatIds (blockTopic s id topic) !! id) ↔ is_Some (ChatIds s !! id))
  ∧ (is_Some (ChatIds (unblockTopic s id topic) !! id) ↔ is_Some (ChatIds s !! id)).
Proof.
  split_and!.
  - intros id' Hne. split; [by apply blockTopic_other|by apply unblockTopic_other].
  - apply blockTopic_watermark.
  - apply unblockTopic_watermark.
  - destruct (ChatIds s !! id) as [m|] eqn:Hid.
    + destruct (blockTopic_cases s id topic m Hid) as [-> | ->]; rewrite ?Hid; done.
    + by rewrite blockTopic_unsubscribed, Hid.
  - destruct (ChatIds s !! id) as [m|] eqn:Hid.
    + by rewrite (unblockTopic_lookup s id topic m Hid).
    + by rewrite unblockTopic_unsubscribed, Hid.
Qed.

(** Blocking never adds a notification and unblocking never removes one,
    for any recipient and any topic. *)
Theorem block_shrinks_unblock_grows (s : State) (id : Z) (label : string)
    (id' : Z) (topic : string) :
  (id' ∈ chatIdsForTopic (blockTopic s id label) topic →
   id' ∈ chatIdsForTopic s topic)
  ∧ (id' ∈ chatIdsForTopic s topic →
     id' ∈ chatIdsForTopic (unblockTopic s id label) topic).
Proof.
  rewrite !elem_of_chatIdsForTopic.
  destruct (decide (id' = id)) as [->|Hne].
  2:{ rewrite blockTopic_other, unblockTopic_other by done. tauto. }
  destruct (ChatIds s !! id) as [m|] eqn:Hid.
  2:{ rewrite blockTopic_unsubscribed, unblockTopic_unsubscribed, Hid by done.
      tauto. }
  split.
  - destruct (blockTopic_cases s id label m Hid) as [-> | ->]; [by rewrite Hid|].
    intros (bl & [= <-] & Hn). exists m. split; [done|].
    revert Hn. apply notified_mono. intros k Hk.
    destruct (decide (label = k)) as [->|Hk'];
      [apply flag_insert_eq|by rewrite flag_insert_ne].
  - intros (bl & [= <-] & Hn).
    rewrite (unblockTopic_lookup s id label m Hid). eexists. split; [done|].
    revert Hn. apply notified_mono. intros k.
    destruct (decide (label = k)) as [->|Hk'];
      [by rewrite flag_delete_eq|by rewrite flag_delete_ne].
Qed.

(** [unblockTopic] changes nothing for a recipient without an entry and for
    a label the filter set does not hold; unblocking twice is unblocking
    once. *)
Theorem unblockTopic_absent_is_noop (s : State) (id : Z) (topic : string) :
  (ChatIds s !! id = None → unblockTopic s id topic = s)
  ∧ (∀ m, ChatIds s !! id = Some m → m !! topic = None →
          unblockTopic s id topic = s)
  ∧ unblockTopic (unblockTopic s id topic) id topic = unblockTopic s id topic.
Proof.
  split_and!.
  - apply unblockTopic_unsubscribed.
  - intros m Hid Habs. unfold unblockTopic. rewrite Hid.
    rewrite delete_id by done. rewrite insert_id by done. apply State_eta.
  - unfold unblockTopic. destruct (ChatIds s !! id) as [m|] eqn:Hid.
    + simpl. rewrite lookup_insert_eq. simpl.
      by rewrite insert_insert_eq, delete_delete_eq.
    + by rewrite Hid.
Qed.

Lemma chatIdsForTopic_NoDup s topic : NoDup (chatIdsForTopic s topic).
Proof.
  unfold chatIdsForTopic.
  assert (Hnd : NoDup (range (ChatIds s)).*1).
  { rewrite range_perm. apply NoDup_fst_map_to_list. }
  revert Hnd. generalize (range (ChatIds s)). intros l.
  induction l as [|[k m] l IH]; simpl; [constructor|].
  rewrite NoDup_cons. intros [Hnin Hnd].
  destruct (notified topic m); simpl; [|by apply IH].
  apply NoDup_cons. split; [|by apply IH].
  intros Hin. apply Hnin. apply list_elem_of_fmap in Hin as (e & -> & He).
  apply list_elem_of_In, filter_In in He as [He _].
  apply list_elem_of_fmap. exists e. split; [done|]. by apply list_elem_of_In.
Qed.

(** [chatIdsForTopic]: no recipient appears twice, whatever the iteration
    order; a recipient without an entry is never in the result; one with an
    empty filter set always is; and one whose filter set does not hold the
    sentinel is in the result exactly when the topic is not blocked. *)
Theorem chatIdsForTopic_default_allow (s : State) (topic : string) :
  NoDup (chatIdsForTopic s topic)
  ∧ (∀ id, ChatIds s !! id = None → id ∉ chatIdsForTopic s topic)
  ∧ (∀ id, ChatIds s !! id = Some ∅ → id ∈ chatIdsForTopic s topic)
  ∧ (∀ id m, ChatIds s !! id = Some m →
       flag m ALL_EXCEPT_GOVERNANCE = false →
       (id ∈ chatIdsForTopic s topic ↔ flag m topic = false)).
Proof.
  split_and!.
  - apply chatIdsForTopic_NoDup.
  - intros id Hid Hin. apply elem_of_chatIdsForTopic in Hin as (m & Hm & _).
    congruence.
  - intros id Hid. apply elem_of_chatIdsForTopic. eauto using notified_empty.
  - intros id m Hid Hs. rewrite elem_of_chatIdsForTopic.
    assert (Hn : notified topic m = negb (flag m topic)).
    { unfold notified. rewrite Hs. by destruct (flag m topic). }
    split.
    + intros (bl & Hbl & Hb). rewrite Hid in Hbl. injection Hbl as <-.
      rewrite Hn in Hb. by apply negb_true_iff.
    + intros Hf. exists m. split; [done|]. by rewrite Hn, Hf.
Qed.

End MoreRegistryFacts.

(** ** The limits as an invariant of the commands *)

(** Every filter set holds at most 30 labels, none longer than 50 bytes. *)
Definition withinLimits (s : State) : Prop :=
  ∀ id m, ChatIds s !! id = Some m →
    size m ≤ MAX_BLOCKED_TOPICS
    ∧ ∀ topic, is_Some (m !! topic) → String.length topic ≤ MAX_TOPIC_LENGTH.

(** [blockTopic] either changes nothing or passed both guards. *)
Lemma blockTopic_guarded s id topic blacklist :
  ChatIds s !! id = Some blacklist →
  blockTopic s id topic = s
  ∨ (String.length topic ≤ MAX_TOPIC_LENGTH
     ∧ size blacklist < MAX_BLOCKED_TOPICS
     ∧ ChatIds (blockTopic s id topic) !! id = Some (<[topic := true]> blacklist)).
Proof.
  intros Hid. unfold blockTopic. rewrite Hid.
  destruct (Nat.ltb_spec MAX_TOPIC_LENGTH (String.length topic)); [by left|].
  destruct (Nat.ltb_spec (size blacklist) MAX_BLOCKED_TOPICS); [right|by left].
  simpl. by rewrite lookup_insert_eq.
Qed.

Lemma splitWords_nonempty text : splitWords text ≠ [].
Proof.
  destruct text as [|c rest]; simpl; [done|].
  destruct (Ascii.eqb c " "); [done|]. by destruct (splitWords rest).
Qed.

Lemma withinLimits_addChatId s id : withinLimits s → withinLimits (addChatId s id).
Proof.
  intros Hs id' m. simpl. destruct (decide (id = id')) as [->|Hne].
  - rewrite lookup_insert_eq. intros [= <-]. split.
    + rewrite map_size_empty. lia.
    + intros topic [b Hb]. by rewrite lookup_empty in Hb.
  - rewrite lookup_insert_ne by done. apply Hs.
Qed.

Lemma withinLimits_removeChatId s id : withinLimits s → withinLimits (removeChatId s id).
Proof.
  intros Hs id' m. simpl. intros Hm. apply lookup_delete_Some in Hm as [_ Hm].
  exact (Hs id' m Hm).
Qed.

Lemma withinLimits_blockTopic s id topic :
  withinLimits s → withinLimits (blockTopic s id topic).
Proof.
  intros Hs id' m'. destruct (decide (id' = id)) as [->|Hne].
  2:{ rewrite blockTopic_other by done. apply Hs. }
  destruct (ChatIds s !! id) as [m|] eqn:Hid.
  2:{ rewrite blockTopic_unsubscribed by done. apply Hs. }
  destruct (blockTopic_guarded s id topic m Hid) as [-> | (Hlen & Hsize & ->)];
    [apply Hs|].
  intros [= <-]. destruct (Hs id m Hid) as [_ Hkeys]. split.
  - rewrite map_size_insert. destruct (m !! topic); simpl; lia.
  - intros k [b Hk]. destruct (decide (topic = k)) as [<-|Hk']; [done|].
    rewrite lookup_insert_ne in Hk by done. apply Hkeys. eauto.
Qed.

Lemma withinLimits_unblockTopic s id topic :
  withinLimits s → withinLimits (unblockTopic s id topic).
Proof.
  intros Hs id' m'. destruct (decide (id' = id)) as [->|Hne].
  2:{ rewrite unblockTopic_other by done. apply Hs. }
  destruct (ChatIds s !! id) as [m|] eqn:Hid.
  2:{ rewrite unblockTopic_unsubscribed by done. apply Hs. }
  rewrite (unblockTopic_lookup s id topic m Hid). intros [= <-].
  destruct (Hs id m Hid) as [Hsize Hkeys]. split.
  - rewrite map_size_delete. destruct (m !! topic); simpl; lia.
  - intros k [b Hk]. apply lookup_delete_Some in Hk as [_ Hk]. apply Hkeys. eauto.
Qed.

Section CommandFacts.
Context {order : RangeOrder}.

(** The state after a message is the old one or the result of one registry
    operation for the sender. *)
Lemma handleMessage_cases s id text :
  (handleMessage s id text).1 = s
  ∨ (handleMessage s id text).1 = addChatId s id
  ∨ (handleMessage s id text).1 = removeChatId s id
  ∨ (∃ topic, (handleMessage s id text).1 = blockTopic s id topic)
  ∨ (∃ topic, (handleMessage s id text).1 = unblockTopic s id topic).
Proof.
  unfold handleMessage. destruct (splitWords text) as [|cmd args]; [by left|].
  destruct (String.eqb cmd "/start"); [by right; left|].
  destruct (String.eqb cmd "/stop"); [by right; right; left|].
  destruct (String.eqb cmd "/block") eqn:Hb; simpl.
  { destruct args as [|topic [|]]; [by left| |by left].
    right; right; right; left. by exists topic. }
  destruct (String.eqb cmd "/unblock"); simpl.
  { destruct args as [|topic [|]]; [by left| |by left].
    right; right; right; right. by exists topic. }
  destruct (String.eqb cmd "/governance_only").
  { right; right; right; left. by exists ALL_EXCEPT_GOVERNANCE. }
  destruct (String.eqb cmd "/blacklist"); by left.
Qed.

(** Whatever text a chat sends, the limits on the filter sets (at most 30
    labels, each at most 50 bytes) that hold before the message hold after
    it. *)
Theorem commands_keep_limits (s : State) (id : Z) (text : string) :
  withinLimits s → withinLimits (handleMessage s id text).1.
Proof.
  intros Hs.
  destruct (handleMessage_cases s id text)
    as [-> | [-> | [-> | [[topic ->] | [topic ->]]]]].
  - done.
  - by apply withinLimits_addChatId.
  - by apply withinLimits_removeChatId.
  - by apply withinLimits_blockTopic.
  - by apply withinLimits_unblockTopic.
Qed.

(** Whatever text a chat sends, the message is answered, the watermark stays
    as it is, and the entries of all other chats stay as they are. *)
Theorem commands_touch_only_the_sender (s : State) (id : Z) (text : string) :
  is_Some (handleMessage s id text).2
  ∧ LastSeenProposal (handleMessage s id text).1 = LastSeenProposal s
  ∧ (∀ id', id' ≠ id →
       ChatIds (handleMessage s id text).1 !! id' = ChatIds s !! id').
Proof.
  split_and!.
  - unfold handleMessage. pose proof (splitWords_nonempty text) as Hne.
    destruct (splitWords text) as [|cmd args]; [done|].
    repeat (match goal with
            | |- context [if ?b then _ else _] => destruct b
            end; simpl; eauto).
    all: destruct args as [|topic [|]]; simpl; eauto.
  - destruct (handleMessage_cases s id text)
      as [-> | [-> | [-> | [[topic ->] | [topic ->]]]]];
      auto using blockTopic_watermark, unblockTopic_watermark.
  - intros id' Hne.
    destruct (handleMessage_cases s id text)
      as [-> | [-> | [-> | [[topic ->] | [topic ->]]]]]; simpl.
    + done.
    + by rewrite lookup_insert_ne.
    + by rewrite lookup_delete_ne.
    + by apply blockTopic_other.
    + by apply unblockTopic_other.
Qed.

End CommandFacts.

(** ** Strings *)

Lemma string_app_cons x (a b : string) : String x a +:+ b = String x (a +:+ b).
Proof. reflexivity. Qed.

Lemma string_app_assoc (a b c : string) : (a +:+ b) +:+ c = a +:+ (b +:+ c).
Proof.
  induction a as [|x a IH]; [done|]. rewrite !string_app_cons. by rewrite IH.
Qed.

Lemma string_app_nil_r (a : string) : a +:+ EmptyString = a.
Proof.
  induction a as [|x a IH]; [done|]. rewrite string_app_cons. by rewrite IH.
Qed.

Lemma string_length_app (a b : string) :
  String.length (a +:+ b) = String.length a + String.length b.
Proof.
  induction a as [|x a IH]; [done|]. rewrite string_app_cons. simpl. by rewrite IH.
Qed.

Lemma prefix_split sub : ∀ s,
  String.prefix sub s = true → ∃ rest, s = sub +:+ rest.
Proof.
  induction sub as [|a sub IH]; intros s H.
  - exists s. by destruct s.
  - destruct s as [|b s]; simpl in H; [done|].
    destruct (ascii_dec a b) as [->|]; [|done].
    destruct (IH s H) as [rest ->]. by exists rest.
Qed.

Lemma splitWords_cons c rest :
  splitWords (String c rest) =
  if Ascii.eqb c " " then EmptyString :: splitWords rest
  else match splitWords rest with
       | w :: ws => String c w :: ws
       | [] => [String c EmptyString]
       end.
Proof. reflexivity. Qed.

Lemma contains_cons c s sub :
  contains (String c s) sub = String.prefix sub (String c s) || contains s sub.
Proof. reflexivity. Qed.

Lemma prefix_cons a s1 b s2 :
  String.prefix (String a s1) (String b s2)
  = if ascii_dec a b then String.prefix s1 s2 else false.
Proof. reflexivity. Qed.

Lemma concat_cons_char sep c w ws :
  String.concat sep (String c w :: ws) = String c (String.concat sep (w :: ws)).
Proof. by destruct ws. Qed.

Lemma concat_cons_empty c w ws :
  String.concat (String c EmptyString) (EmptyString :: w :: ws)
  = String c (String.concat (String c EmptyString) (w :: ws)).
Proof. reflexivity. Qed.

(** [splitWords] is the inverse of joining with a space: the words joined
    by single spaces give the text back; there is always at least one word,
    and no word holds a space. *)
Theorem splitWords_join (text : string) :
  String.concat " " (splitWords text) = text
  ∧ splitWords text ≠ []
  ∧ Forall (λ word, contains word " " = false) (splitWords text).
Proof.
  split_and!; [| apply splitWords_nonempty |].
  - induction text as [|c rest IH]; [done|].
    rewrite splitWords_cons.
    pose proof (splitWords_nonempty rest) as Hne.
    destruct (Ascii.eqb_spec c " ") as [->|Hc].
    + destruct (splitWords rest) as [|w ws]; [done|].
      rewrite concat_cons_empty. by rewrite IH.
    + destruct (splitWords rest) as [|w ws]; [done|].
      rewrite concat_cons_char. by rewrite IH.
  - induction text as [|c rest IH]; [by repeat constructor|].
    rewrite splitWords_cons.
    pose proof (splitWords_nonempty rest) as Hne.
    destruct (Ascii.eqb_spec c " ") as [->|Hc].
    + constructor; [done|exact IH].
    + destruct (splitWords rest) as [|w ws]; [done|].
      apply Forall_cons in IH as [Hw Hws]. constructor; [|done].
      rewrite contains_cons, prefix_cons.
      destruct (ascii_dec " " c) as [<-|_]; [done|]. exact Hw.
Qed.

(** [contains] is the substring test: it answers true exactly for the
    strings that are some prefix, then the substring, then some suffix. *)
Theorem contains_iff_substring (s sub : string) :
  contains s sub = true ↔ ∃ before after, s = before +:+ sub +:+ after.
Proof.
  split.
  - induction s as [|c s IH]; rewrite contains_unfold; intros H.
    + rewrite orb_false_r in H. apply prefix_split in H as [rest ->].
      by exists EmptyString, rest.
    + apply orb_true_iff in H as [H|H].
      * apply prefix_split in H as [rest ->]. by exists EmptyString, rest.
      * destruct (IH H) as (before & after & ->).
        by exists (String c before), after.
  - intros (before & after & ->).
    apply contains_app_r, contains_app_l, contains_refl.
Qed.

(** ** Message text *)

(** The summary part of a message never exceeds the maximum of 2048 bytes,
    the two newlines included, however long the summary of the proposal;
    it is empty exactly for an empty summary. *)
Theorem renderSummary_bounded (summary : string) :
  String.length (renderSummary summary) ≤ MAX_SUMMARY_LENGTH
  ∧ (renderSummary summary = EmptyString ↔ summary = EmptyString).
Proof.
  unfold renderSummary.
  destruct (Nat.ltb_spec MAX_SUMMARY_LENGTH (String.length summary + 2)) as [Hl|Hl].
  - change (if (0 <? String.length SUMMARY_TOO_LONG)%nat
            then nl +:+ SUMMARY_TOO_LONG +:+ nl else SUMMARY_TOO_LONG)
      with (nl +:+ SUMMARY_TOO_LONG +:+ nl).
    split.
    + apply Nat.leb_le. vm_compute. reflexivity.
    + split.
      * intros H. vm_compute in H. discriminate H.
      * intros ->. exfalso. apply Nat.ltb_lt in Hl. vm_compute in Hl.
        discriminate Hl.
  - destruct summary as [|c summary].
    + split; [apply Nat.le_0_l|done].
    + change (0 <? String.length (String c summary))%nat with true. cbv iota.
      split.
      * rewrite !string_length_app. change (String.length nl) with 1. lia.
      * split; intros H; [|discriminate H].
        unfold nl in H. rewrite string_app_cons in H. discriminate H.
Qed.


(** ** Dispatcher *)

(** Does [bot.Send] to this chat fail with the error of a user who blocked
    the bot? *)
Definition sendBlocked (send : Z → string → option string)
    (chat : Z) (text : string) : bool :=
  match send chat text with
  | Some err => contains err "bot was blocked by the user"
  | None => false
  end.

Section DispatcherFacts.
Context {order : RangeOrder}.
Variable send : Z → string → option string.

Lemma sendAll_registry text ids : ∀ s id,
  ChatIds (sendAll send s text ids).1 !! id
  = if bool_decide (id ∈ ids) && sendBlocked send id text then None
    else ChatIds s !! id.
Proof.
  induction ids as [|a rest IH]; intros s id.
  { rewrite (bool_decide_eq_false_2 (id ∈ [])) by apply not_elem_of_nil. done. }
  assert (Hstep : ChatIds (sendAll send s text (a :: rest)).1 !! id
          = ChatIds (sendAll send
                       (if sendBlocked send a text then removeChatId s a else s)
                       text rest).1 !! id).
  { simpl. unfold sendBlocked. destruct (send a text) as [err|].
    - destruct (contains err _).
      + by destruct (sendAll send (removeChatId s a) text rest).
      + by destruct (sendAll send s text rest).
    - by destruct (sendAll send s text rest). }
  rewrite Hstep, IH. clear Hstep IH.
  destruct (decide (id = a)) as [->|Hne].
  - rewrite (bool_decide_eq_true_2 (a ∈ a :: rest)) by apply list_elem_of_here.
    destruct (sendBlocked send a text); simpl.
    + rewrite lookup_delete_eq. by destruct (bool_decide _).
    + by rewrite andb_false_r.
  - assert (Hb : bool_decide (id ∈ a :: rest) = bool_decide (id ∈ rest)).
    { apply bool_decide_ext. rewrite elem_of_cons. tauto. }
    rewrite Hb. destruct (bool_decide (id ∈ rest) && sendBlocked send id text);
      [done|].
    destruct (sendBlocked send a text); [|done]. simpl. by rewrite lookup_delete_ne.
Qed.

Lemma deliveries_app t1 t2 : deliveries (t1 ++ t2) = deliveries t1 ++ deliveries t2.
Proof. apply omap_app. Qed.

Lemma notify_deliveries s p :
  deliveries (notify send s p).2
  = (λ id, (id, renderText p)) <$> chatIdsForTopic s (Topic p).
Proof.
  unfold notify.
  destruct (sendAll_spec send (renderText p) (chatIdsForTopic s (Topic p)) s)
    as (_ & _ & Hs).
  destruct (sendAll send s (renderText p) (chatIdsForTopic s (Topic p)))
    as [s' trace]; simpl in *.
  change (LogNewProposal p :: ?t) with ([LogNewProposal p] ++ t).
  rewrite !deliveries_app, Hs. simpl.
  destruct (0 <? _)%nat; simpl; by rewrite app_nil_r.
Qed.

Lemma notify_registry s p id :
  ChatIds (notify send s p).1 !! id
  = if bool_decide (id ∈ chatIdsForTopic s (Topic p))
       && sendBlocked send id (renderText p)
    then None else ChatIds s !! id.
Proof.
  unfold notify.
  pose proof (sendAll_registry (renderText p) (chatIdsForTopic s (Topic p)) s id)
    as H.
  by destruct (sendAll send s (renderText p) (chatIdsForTopic s (Topic p))).
Qed.

(** For an admitted proposal, [bot.Send] is called exactly once for each
    chat that [chatIdsForTopic] returns, with the text of the proposal,
    whether or not the calls fail: nothing is retried and nobody is left
    out. *)
Theorem dispatch_sends_once_to_each_eligible (s : State) (p : Proposal) :
  deliveries (notify send s p).2
    = (λ id, (id, renderText p)) <$> chatIdsForTopic s (Topic p)
  ∧ NoDup (deliveries (notify send s p).2)
  ∧ (∀ chat text, (chat, text) ∈ deliveries (notify send s p).2 ↔
       text = renderText p ∧ chat ∈ chatIdsForTopic s (Topic p)).
Proof.
  rewrite notify_deliveries. split_and!.
  - reflexivity.
  - apply NoDup_fmap_2; [|apply chatIdsForTopic_NoDup].
    intros a b Hab. by injection Hab.
  - intros chat text. rewrite list_elem_of_fmap. split.
    + intros (id & [= -> ->] & Hin). done.
    + intros [-> Hin]. by exists chat.
Qed.

(** After the dispatch of a proposal, exactly the chats whose send failed
    with "bot was blocked by the user" have lost their entry: they are
    notified about no topic any more, and every other entry is as it was,
    other send errors included. *)
Theorem dispatch_removes_blocked_chats (s : State) (p : Proposal) (id : Z) :
  ChatIds (notify send s p).1 !! id
    = (if bool_decide (id ∈ chatIdsForTopic s (Topic p))
          && sendBlocked send id (renderText p)
       then None else ChatIds s !! id)
  ∧ (id ∈ chatIdsForTopic s (Topic p) →
     sendBlocked send id (renderText p) = true →
     ∀ topic, id ∉ chatIdsForTopic (notify send s p).1 topic)
  ∧ (sendBlocked send id (renderText p) = false →
     ChatIds (notify send s p).1 !! id = ChatIds s !! id).
Proof.
  pose proof (notify_registry s p id) as Hl. split_and!.
  - exact Hl.
  - intros Hin Hb topic Hin'.
    apply elem_of_chatIdsForTopic in Hin' as (m & Hm & _).
    rewrite Hl, Hb, bool_decide_eq_true_2 in Hm by done. done.
  - intros Hb. by rewrite Hl, Hb, andb_false_r.
Qed.

End DispatcherFacts.

(** ** A tick as a whole, and runs of the process *)

(** The two loops of the process as one sequence of steps: a tick of the
    poller with what the fetch returned, or a message handled by [main].
    The steps are taken one after the other, which is the behaviour of the
    goroutines when no message arrives in the middle of a tick. *)
Inductive Step :=
  | Poll (f : Fetched)
  | Message (chat : Z) (text : string).

Definition outcomeTrace (o : Outcome) : list Event :=
  match o with
  | Panic trace => trace
  | Next _ trace => trace
  end.

Section Runs.
Context {order : RangeOrder}.
Variable send : Z → string → option string.

(** The steps in order; a panic ends the run.  The reply of [main] is a
    call of [bot.Send] like the others. *)
Fixpoint run (s : State) (steps : list Step) : Outcome :=
  match steps with
  | [] => Next s []
  | step :: rest =>
      let '(now, t1) :=
        match step with
        | Poll f => (tick send s f, [])
        | Message chat text =>
            let '(s1, reply) := handleMessage s chat text in
            (Next s1 [], match reply with
                         | Some r => [Send chat r]
                         | None => []
                         end)
        end in
      match now with
      | Panic t => Panic (t1 ++ t)
      | Next s1 t =>
          match run s1 rest with
          | Panic t2 => Panic (t1 ++ t ++ t2)
          | Next s2 t2 => Next s2 (t1 ++ t ++ t2)
          end
      end
  end.

Lemma processProposals_frame proposals : ∀ s,
  (∀ id m, ChatIds (processProposals send s proposals).1 !! id = Some m →
           ChatIds s !! id = Some m)
  ∧ (∀ chat text, (chat, text) ∈ deliveries (processProposals send s proposals).2 →
                  is_Some (ChatIds s !! chat)).
Proof.
  induction proposals as [|p rest IH]; intros s; simpl.
  { split; [done|]. intros chat text Hin. by apply elem_of_nil in Hin. }
  unfold setNewLastSeenId.
  destruct (LastSeenProposal s <? Id p)%N; simpl; [|apply IH].
  set (s1 := mkState (Id p) (ChatIds s)).
  pose proof (notify_deliveries send s1 p) as Hdel.
  pose proof (notify_registry send s1 p) as Hreg.
  destruct (notify send s1 p) as [s2 t1]; simpl in *.
  destruct (IH s2) as [Hsub Hsent].
  destruct (processProposals send s2 rest) as [s3 t2]; simpl in *.
  assert (Hshrink : ∀ id m, ChatIds s2 !! id = Some m → ChatIds s !! id = Some m).
  { intros id m. rewrite Hreg. by destruct (_ && _). }
  split.
  - intros id m Hm. by apply Hshrink, Hsub.
  - intros chat text. rewrite deliveries_app, elem_of_app, Hdel.
    intros [Hin|Hin].
    + apply list_elem_of_fmap in Hin as (id & [= -> ->] & Hin).
      apply elem_of_chatIdsForTopic in Hin as (m & Hm & _). by exists m.
    + destruct (Hsent chat text Hin) as [m Hm]. exists m. by apply Hshrink.
Qed.

Lemma tick_inv s f :
  match tick send s f with
  | Panic trace => dispatched trace = [] ∧ deliveries trace = []
  | Next s' trace =>
      (∃ proposals,
         LastSeenProposal s' = foldl N.max (LastSeenProposal s) proposals
         ∧ dispatched trace = admitted (LastSeenProposal s) proposals)
      ∧ (∀ id m, ChatIds s' !! id = Some m → ChatIds s !! id = Some m)
      ∧ (∀ chat text, (chat, text) ∈ deliveries trace → is_Some (ChatIds s !! chat))
  end.
Proof.
  unfold tick.
  assert (Hlogs : ∀ t, dispatched
            (match getErr f with Some err => [LogGetFailed err] | None => [] end ++ t)
            = dispatched t
          ∧ deliveries
            (match getErr f with Some err => [LogGetFailed err] | None => [] end ++ t)
            = deliveries t) by (intros t; by destruct (getErr f)).
  destruct (resp f) as [r|].
  2:{ by destruct (getErr f). }
  assert (Hlogs' : ∀ t, dispatched
            (match readErr r with Some err => [LogReadFailed err] | None => [] end ++ t)
            = dispatched t
          ∧ deliveries
            (match readErr r with Some err => [LogReadFailed err] | None => [] end ++ t)
            = deliveries t) by (intros t; by destruct (readErr r)).
  destruct (decoded r) as [proposals|].
  - destruct (processProposals_spec send (sortById proposals) s) as (Hw & Hd).
    destruct (processProposals_frame (sortById proposals) s) as (Hsub & Hsent).
    destruct (processProposals send s (sortById proposals)) as [s' t2]; simpl in *.
    destruct (Hlogs (match readErr r with
                     | Some err => [LogReadFailed err] | None => [] end ++ t2))
      as [-> ->].
    destruct (Hlogs' t2) as [-> ->].
    split_and!; [by exists (Id <$> sortById proposals)|done|done].
  - destruct (Hlogs (match readErr r with
                     | Some err => [LogReadFailed err] | None => [] end
                     ++ [LogParseFailed])) as [-> ->].
    destruct (Hlogs' [LogParseFailed]) as [-> ->].
    split_and!; [by exists []|done|].
    intros chat text Hin. by apply elem_of_nil in Hin.
Qed.

Lemma foldl_max_le ids : ∀ w, (w <= foldl N.max w ids)%N.
Proof. intros w. rewrite foldl_max_foldr. lia. Qed.

(** A tick that runs to its end never lowers the watermark, never adds a
    chat or changes a filter set (it can only drop chats), keeps the limits
    on the filter sets, and sends only to chats that had an entry when the
    tick began. *)
Theorem tick_only_shrinks_registry (s : State) (f : Fetched)
    (s' : State) (trace : list Event) :
  tick send s f = Next s' trace →
  (LastSeenProposal s <= LastSeenProposal s')%N
  ∧ (∀ id m, ChatIds s' !! id = Some m → ChatIds s !! id = Some m)
  ∧ (withinLimits s → withinLimits s')
  ∧ (∀ chat text, (chat, text) ∈ deliveries trace → is_Some (ChatIds s !! chat)).
Proof.
  intros Htick. pose proof (tick_inv s f) as Hinv. rewrite Htick in Hinv.
  destruct Hinv as ((ids & Hw & _) & Hsub & Hsent).
  split_and!.
  - rewrite Hw. apply foldl_max_le.
  - exact Hsub.
  - intros Hlim id m Hm. apply (Hlim id m). by apply Hsub.
  - exact Hsent.
Qed.

(** A tick whose body cannot be decoded, with or without an error from
    [http.Get] or from reading the body, leaves the state as it was, logs
    the parse failure, and dispatches and sends nothing. *)
Theorem tick_skips_undecodable_body (s : State)
    (readError getError : option string) :
  ∃ trace,
    tick send s (mkFetched (Some (mkResponse readError None)) getError)
      = Next s trace
    ∧ LogParseFailed ∈ trace
    ∧ dispatched trace = []
    ∧ deliveries trace = [].
Proof.
  eexists. split; [reflexivity|]. split_and!.
  - set_solver.
  - by destruct getError, readError.
  - by destruct getError, readError.
Qed.

Lemma handleMessage_watermark s chat text :
  LastSeenProposal (handleMessage s chat text).1 = LastSeenProposal s.
Proof.
  destruct (handleMessage_cases s chat text)
    as [-> | [-> | [-> | [[topic ->] | [topic ->]]]]];
    auto using blockTopic_watermark, unblockTopic_watermark.
Qed.

Lemma run_inv steps : ∀ s,
  StronglySorted N.lt (dispatched (outcomeTrace (run s steps)))
  ∧ Forall (λ id, (LastSeenProposal s < id)%N)
           (dispatched (outcomeTrace (run s steps)))
  ∧ match run s steps with
    | Panic _ => True
    | Next s' trace =>
        (LastSeenProposal s <= LastSeenProposal s')%N
        ∧ Forall (λ id, (id <= LastSeenProposal s')%N) (dispatched trace)
    end.
Proof.
  induction steps as [|step rest IH]; intros s.
  { split_and!; [apply SSorted_nil|apply Forall_nil_2|].
    simpl. split; [apply N.le_refl|apply Forall_nil_2]. }
  destruct step as [f|chat text].
  - simpl. pose proof (tick_inv s f) as Hinv.
    destruct (tick send s f) as [t|s1 t]; simpl.
    + destruct Hinv as [-> _].
      split_and!; [apply SSorted_nil|apply Forall_nil_2|done].
    + destruct Hinv as ((ids & Hw & Hd) & _ & _).
      assert (Hlow : Forall (λ id, (LastSeenProposal s < id)%N) (dispatched t)).
      { rewrite Hd. apply Forall_forall. intros id Hin.
        by apply admitted_bounds in Hin as [? _]. }
      assert (Hhigh : Forall (λ id, (id <= LastSeenProposal s1)%N) (dispatched t)).
      { rewrite Hd, Hw. apply Forall_forall. intros id Hin.
        apply admitted_bounds in Hin as [_ Hin]. by apply foldl_max_ge. }
      assert (Hmono : (LastSeenProposal s <= LastSeenProposal s1)%N)
        by (rewrite Hw; apply foldl_max_le).
      assert (Hsorted : StronglySorted N.lt (dispatched t))
        by (rewrite Hd; apply admitted_increasing).
      destruct (IH s1) as (Hs2 & Hl2 & Hn2).
      assert (Hgoal : ∀ t2,
                StronglySorted N.lt (dispatched t2) →
                Forall (λ id, (LastSeenProposal s1 < id)%N) (dispatched t2) →
                StronglySorted N.lt (dispatched (t ++ t2))
                ∧ Forall (λ id, (LastSeenProposal s < id)%N) (dispatched (t ++ t2))).
      { intros t2 Hst Hlt. rewrite dispatched_app. split.
        - apply StronglySorted_app_2; [|done|done].
          intros x1 x2 H1 H2. rewrite Forall_forall in Hhigh, Hlt.
          specialize (Hhigh x1 H1). specialize (Hlt x2 H2). lia.
        - apply Forall_app. split; [done|].
          eapply Forall_impl; [exact Hlt|]. intros x Hx. simpl in Hx. lia. }
      destruct (run s1 rest) as [t2|s2 t2]; simpl in *.
      * destruct (Hgoal t2 Hs2 Hl2). done.
      * destruct (Hgoal t2 Hs2 Hl2) as [? ?]. destruct Hn2 as [Hm2 Hh2].
        split_and!; [done|done|lia|].
        rewrite dispatched_app. apply Forall_app. split; [|done].
        eapply Forall_impl; [exact Hhigh|]. intros x Hx. simpl in Hx. lia.
  - simpl.
    pose proof (handleMessage_watermark s chat text) as Hw.
    destruct (handleMessage s chat text) as [s1 reply]; simpl in *.
    destruct (IH s1) as (Hs2 & Hl2 & Hn2). rewrite Hw in *.
    assert (Hr : ∀ t2, dispatched
              (match reply with Some r => [Send chat r] | None => [] end ++ t2)
              = dispatched t2) by (intros t2; by destruct reply).
    destruct (run s1 rest) as [t2|s2 t2]; simpl in *; rewrite Hr; done.
Qed.


End Runs.

(** ** Snapshot writer, the other paths *)

Definition outcomeFiles (o : PersistOutcome) : Files :=
  match o with
  | Exited files _ => files
  | Returned files _ => files
  end.

Section PersistFacts.
Variable jsonMarshal : State → string + string.

(** [persist] touches no file but the snapshot and its temporary file,
    whatever fails. *)
Theorem persist_touches_two_files (io : PersistIO) (s : State) (files : Files)
    (path : string) :
  path ≠ STATE_PATH →
  (∀ tmp, tempName io = inl tmp → path ≠ tmp) →
  outcomeFiles (persist jsonMarshal io s files) !! path = files !! path.
Proof.
  intros Hstate Htmp. unfold persist.
  destruct (jsonMarshal s) as [data|err]; [|done].
  destruct (tempName io) as [tmp|err]; [|done].
  specialize (Htmp tmp eq_refl).
  destruct (written io) as [|err partial]; simpl;
    rewrite lookup_insert_eq; destruct (renamed io); simpl;
    rewrite ?lookup_insert_ne, ?lookup_delete_ne, ?lookup_insert_ne by done; done.
Qed.

(** When every step succeeds, and the temporary file is a new one as
    [ioutil.TempFile] promises, [persist] changes exactly the snapshot: it
    holds the marshalled state, and the temporary file is gone. *)
Theorem persist_success_replaces_snapshot (io : PersistIO) (s : State)
    (files : Files) (data tmp : string) :
  jsonMarshal s = inl data →
  tempName io = inl tmp →
  files !! tmp = None →
  written io = Written →
  renamed io = true →
  persist jsonMarshal io s files
  = Returned (<[STATE_PATH := data]> files) [LogPersisted (String.length data)].
Proof.
  intros Hm Ht Hfresh Hw Hr. unfold persist. rewrite Hm, Ht, Hw, Hr. simpl.
  rewrite lookup_insert_eq. do 2 f_equal.
  rewrite insert_insert_eq, delete_insert_eq. by rewrite delete_id.
Qed.

(** The paths on which no rename happens.  If [json.Marshal] fails nothing
    is written and [persist] returns; if [ioutil.TempFile] fails nothing is
    written and the process exits ([log.Fatal]); if [os.Rename] fails the
    snapshot is as it was and the temporary file stays behind. *)
Theorem persist_failures_keep_snapshot (io : PersistIO) (s : State) (files : Files) :
  (∀ err, jsonMarshal s = inr err →
          persist jsonMarshal io s files = Returned files [LogSerializeFailed err])
  ∧ (∀ data err, jsonMarshal s = inl data → tempName io = inr err →
          persist jsonMarshal io s files = Exited files [LogFatal err])
  ∧ (∀ data tmp, jsonMarshal s = inl data → tempName io = inl tmp →
          renamed io = false → tmp ≠ STATE_PATH →
          outcomeFiles (persist jsonMarshal io s files) !! STATE_PATH
            = files !! STATE_PATH
          ∧ is_Some (outcomeFiles (persist jsonMarshal io s files) !! tmp)).
Proof.
  split_and!.
  - intros err Hm. unfold persist. by rewrite Hm.
  - intros data err Hm Ht. unfold persist. by rewrite Hm, Ht.
  - intros data tmp Hm Ht Hr Hne. unfold persist. rewrite Hm, Ht, Hr.
    destruct (written io) as [|err partial]; simpl;
      rewrite !lookup_insert_eq, !lookup_insert_ne by done; eauto.
Qed.

End PersistFacts.

(** ** Instances of the further properties *)

Section MoreInstances.
Existing Instance listOrder.

Lemma blockTopic_withholds_topic_witness :
  ChatIds spamChat !! 1%Z = Some {["spam" := true]}
  ∧ String.length "X" ≤ MAX_TOPIC_LENGTH
  ∧ size ({["spam" := true]} : gmap string bool) < MAX_BLOCKED_TOPICS
  ∧ (1%Z ∉ chatIdsForTopic (blockTopic spamChat 1 "X") "X")
  ∧ contains (blockedTopics (blockTopic spamChat 1 "X") 1) "X" = true.
Proof.
  assert (H1 : ChatIds spamChat !! 1%Z = Some {["spam" := true]}) by reflexivity.
  assert (H2 : String.length "X" ≤ MAX_TOPIC_LENGTH) by (vm_compute; lia).
  assert (H3 : size ({["spam" := true]} : gmap string bool) < MAX_BLOCKED_TOPICS)
    by (vm_compute; lia).
  pose proof (blockTopic_withholds_topic spamChat 1 _ "X" H1 H2 H3)
    as (Hout & _ & Hread).
  exact (conj H1 (conj H2 (conj H3 (conj Hout Hread)))).
Defined.

(** The filter set of [fullChat] is at the quota and within the limits. *)
Lemma withinLimits_fullChat : withinLimits fullChat.
Proof.
  intros id m Hm. simpl in Hm. apply lookup_singleton_Some in Hm as [_ <-].
  split.
  - apply Nat.leb_le. vm_compute. reflexivity.
  - intros topic [b Hb]. apply elem_of_list_to_map_2 in Hb.
    assert (Hall : Forall (λ e : string * bool,
                     (String.length e.1 <=? MAX_TOPIC_LENGTH)%nat = true)
                     ((λ n, (decimal (N.of_nat n), true)) <$> seq 0 30))
      by (vm_compute; repeat constructor).
    rewrite Forall_forall in Hall. apply Nat.leb_le. exact (Hall _ Hb).
Qed.

Lemma withinLimits_spamChat : withinLimits spamChat.
Proof.
  intros id m Hm. simpl in Hm. apply lookup_singleton_Some in Hm as [_ <-].
  split.
  - apply Nat.leb_le. vm_compute. reflexivity.
  - intros topic [b Hb]. apply lookup_singleton_Some in Hb as [<- _].
    apply Nat.leb_le. vm_compute. reflexivity.
Qed.

(** At the quota the command /block is refused and the limits hold; below
    it the label is added and the limits hold. *)
Lemma commands_keep_limits_witness :
  withinLimits fullChat
  ∧ size thirtyTopics = MAX_BLOCKED_TOPICS
  ∧ (handleMessage fullChat 1 "/block extra").1 = blockTopic fullChat 1 "extra"
  ∧ withinLimits (handleMessage fullChat 1 "/block extra").1
  ∧ withinLimits spamChat
  ∧ ChatIds (handleMessage spamChat 1 "/block X").1 !! 1%Z
    = Some (<["X" := true]> {["spam" := true]})
  ∧ withinLimits (handleMessage spamChat 1 "/block X").1.
Proof.
  split_and!.
  - exact withinLimits_fullChat.
  - vm_compute. reflexivity.
  - reflexivity.
  - exact (commands_keep_limits fullChat 1 "/block extra" withinLimits_fullChat).
  - exact withinLimits_spamChat.
  - reflexivity.
  - exact (commands_keep_limits spamChat 1 "/block X" withinLimits_spamChat).
Defined.

Lemma tick_only_shrinks_registry_witness :
  tick deliverAll twoChats (fetched [proposal5; proposal3])
    = Next (mkState 5 (ChatIds twoChats))
           (processProposals deliverAll twoChats
              (sortById [proposal5; proposal3])).2
  ∧ (LastSeenProposal twoChats <= 5)%N.
Proof.
  assert (H : tick deliverAll twoChats (fetched [proposal5; proposal3])
              = Next (mkState 5 (ChatIds twoChats))
                     (processProposals deliverAll twoChats
                        (sortById [proposal5; proposal3])).2)
    by (vm_compute; reflexivity).
  exact (conj H (proj1 (tick_only_shrinks_registry deliverAll twoChats _ _ _ H))).
Defined.

Lemma persist_touches_two_files_witness :
  "other.txt" ≠ STATE_PATH
  ∧ outcomeFiles
      (persist (λ _, inl "NEW")
         (mkPersistIO (inl "state.json_tmp_1") (WriteFailed "disk full" "N") true)
         twoChats {[STATE_PATH := "OLD"; "other.txt" := "kept"]}) !! "other.txt"
    = ({[STATE_PATH := "OLD"; "other.txt" := "kept"]} : Files) !! "other.txt".
Proof.
  assert (H1 : "other.txt" ≠ STATE_PATH) by discriminate.
  assert (H2 : ∀ tmp : string,
            tempName (mkPersistIO (inl "state.json_tmp_1")
                        (WriteFailed "disk full" "N") true) = inl tmp →
            "other.txt" ≠ tmp) by (intros tmp [= <-]; discriminate).
  exact (conj H1 (persist_touches_two_files (λ _, inl "NEW") _ twoChats _ _ H1 H2)).
Defined.

Lemma persist_success_replaces_snapshot_witness :
  ({[STATE_PATH := "OLD"]} : Files) !! "state.json_tmp_1" = None
  ∧ persist (λ _, inl "NEW") (mkPersistIO (inl "state.json_tmp_1") Written true)
            twoChats {[STATE_PATH := "OLD"]}
    = Returned (<[STATE_PATH := "NEW"]> {[STATE_PATH := "OLD"]}) [LogPersisted 3].
Proof.
  assert (H : ({[STATE_PATH := "OLD"]} : Files) !! "state.json_tmp_1" = None)
    by reflexivity.
  exact (conj H
    (persist_success_replaces_snapshot (λ _, inl "NEW")
       (mkPersistIO (inl "state.json_tmp_1") Written true) twoChats
       {[STATE_PATH := "OLD"]} "NEW" "state.json_tmp_1"
       eq_refl eq_refl H eq_refl eq_refl)).
Defined.

End MoreInstances.

(** ** Parsing of /block and /unblock *)

Lemma contains_space_cons c w :
  contains (String c w) " " = Ascii.eqb c " " || contains w " ".
Proof.
  rewrite contains_cons, prefix_cons.
  destruct (ascii_dec " " c) as [<-|Hne].
  - by destruct w.
  - destruct (Ascii.eqb_spec c " ") as [->|_]; [done|reflexivity].
Qed.

Lemma splitWords_word w : contains w " " = false → splitWords w = [w].
Proof.
  induction w as [|c w IH]; [done|].
  rewrite contains_space_cons, splitWords_cons.
  intros H. apply orb_false_iff in H as [-> Hw]. by rewrite (IH Hw).
Qed.

Lemma splitWords_app_space a b :
  contains a " " = false →
  splitWords (a +:+ " " +:+ b) = a :: splitWords b.
Proof.
  induction a as [|c a IH]; [done|].
  rewrite contains_space_cons. intros H. apply orb_false_iff in H as [Hc Ha].
  rewrite string_app_cons, splitWords_cons, Hc. by rewrite (IH Ha).
Qed.

Lemma splitWords_two_words w :
  contains w " " = true → ∃ x y rest, splitWords w = x :: y :: rest.
Proof.
  induction w as [|c w IH]; [done|].
  rewrite contains_space_cons, splitWords_cons. intros H.
  pose proof (splitWords_nonempty w) as Hne.
  destruct (Ascii.eqb c " ").
  - destruct (splitWords w) as [|y rest]; [done|]. by eexists _, _, _.
  - destruct (IH H) as (x & y & rest & ->). by eexists _, _, _.
Qed.

Section ParsingFacts.
Context {order : RangeOrder}.

(** "/block " followed by a label without a space calls [blockTopic] with
    exactly that label (the empty label included) and answers with the
    listing after the call; likewise for "/unblock ".  When what follows
    holds a space the state is left as it was: a label with a space can
    never be blocked. *)
Theorem block_command_takes_one_word (s : State) (id : Z) (label : string) :
  (contains label " " = false →
     handleMessage s id ("/block " +:+ label)
       = (blockTopic s id label, Some (blockedTopics (blockTopic s id label) id))
     ∧ handleMessage s id ("/unblock " +:+ label)
       = (unblockTopic s id label,
          Some (blockedTopics (unblockTopic s id label) id)))
  ∧ (contains label " " = true →
     handleMessage s id ("/block " +:+ label) = (s, Some "Please specify one topic")
     ∧ handleMessage s id ("/unblock " +:+ label)
       = (s, Some "Please specify one topic")).
Proof.
  assert (Hb : splitWords ("/block " +:+ label) = "/block" :: splitWords label)
    by (apply (splitWords_app_space "/block" label); reflexivity).
  assert (Hu : splitWords ("/unblock " +:+ label) = "/unblock" :: splitWords label)
    by (apply (splitWords_app_space "/unblock" label); reflexivity).
  split; intros Hl.
  - unfold handleMessage. rewrite Hb, Hu, (splitWords_word label Hl). done.
  - unfold handleMessage. rewrite Hb, Hu.
    destruct (splitWords_two_words label Hl) as (x & y & rest & ->). done.
Qed.

End ParsingFacts.

Section ParsingInstances.
Existing Instance listOrder.

Lemma block_command_takes_one_word_witness :
  contains "spam" " " = false
  ∧ contains "two words" " " = true
  ∧ handleMessage twoChats 2 "/block spam"
    = (blockTopic twoChats 2 "spam",
       Some (blockedTopics (blockTopic twoChats 2 "spam") 2))
  ∧ handleMessage twoChats 2 "/block two words"
    = (twoChats, Some "Please specify one topic").
Proof.
  assert (H1 : contains "spam" " " = false) by reflexivity.
  assert (H2 : contains "two words" " " = true) by reflexivity.
  exact (conj H1 (conj H2 (conj
    (proj1 (proj1 (block_command_takes_one_word twoChats 2 "spam") H1))
    (proj1 (proj2 (block_command_takes_one_word twoChats 2 "two words") H2))))).
Defined.

End ParsingInstances.
